(** * Backbone.Mobile: subscription registry, view lifecycle, route compiler

A shallow embedding of [public/javascripts/backbone.mobile.js]
([Mobile.BindTo], [Mobile.View], [Mobile.AppRouter]) together with the
properties its specification states about it.

Conventions of the embedding:
- a JavaScript object that is only compared by identity is a reference
  ([JS.ref]); the binding records created by [bindTo] carry the
  reference they were allocated at in their [ident] field, and [===]
  on them is equality of [ident];
- every call that leaves the module is recorded in the order it is
  made: the [on]/[off] of an event emitter, the hooks of a view,
  [remove], [trigger] and [unbind] in the trace of the holder, the
  [route] calls in the router;
- what the external [on]/[off] does to the holder of the registry
  before it returns (reentrant code) is a parameter, [react]. *)

From stdpp Require Import gmap strings list fin_maps sorting.

(** ** JavaScript values, as far as the module inspects them *)

Module JS.

(** References to objects compared by identity. *)
Abbreviation ref := nat (only parsing).

Inductive value :=
| VUndefined
| VNull
| VBool (b : bool)
| VNum (n : Z)
| VStr (s : string)
| VObj (r : ref)
| VFun (r : ref).

#[global] Instance value_eq_dec : EqDecision value.
Proof. solve_decision. Defined.

(** [ToBoolean]: what [if (v)], [!v] and [v || w] test. *)
Definition truthy (v : value) : bool :=
  match v with
  | VUndefined | VNull => false
  | VBool b => b
  | VNum n => negb (n =? 0)%Z
  | VStr s => negb (bool_decide (s = ""))
  | VObj _ | VFun _ => true
  end.

(** [a || b] *)
Definition or (a b : value) : value := if truthy a then a else b.

End JS.

Import JS.

(** ** The Underscore functions the module calls *)

Module Underscore.

(** [_.reject(list, pred)]: the elements that fail [pred]; an
    [undefined] list yields the empty array. *)
Definition reject {A} (l : option (list A)) (pred : A → bool) : list A :=
  filter (λ x, pred x = false) (default [] l).

(** [_.map(list, f)]; an [undefined] list yields the empty array. *)
Definition map {A B} (l : option (list A)) (f : A → B) : list B :=
  f <$> default [] l.

(** [_.each(list, f)] over an array, the iteratee acting on a state. *)
Definition each {A S} (l : list A) (f : A → S → S) (s : S) : S :=
  fold_left (λ s x, f x s) l s.

Definition identity {A} (x : A) : A := x.

(** [_.isFunction(v)] *)
Definition isFunction (v : value) : bool :=
  match v with
  | VFun _ => true
  | _ => false
  end.

(** [_.extend(target, source)] on objects seen as finite maps: every
    property of [source] is copied onto [target], replacing a property of
    the same name; an [undefined] source copies nothing. *)
Definition extend {V} (target : gmap string V) (source : option (gmap string V))
  : gmap string V :=
  match source with
  | Some src => map_fold (λ prop v obj, <[prop := v]> obj) target src
  | None => target
  end.

End Underscore.

(** ** Mobile.BindTo *)

Module BindTo.

(** The record literal built by [bindTo]. [ident] is the identity of the
    object: two records with the same four fields are still two objects. *)
Record Binding := mkBinding {
  ident : ref;
  obj : ref;
  eventName : string;
  callback : value;
  context : value
}.

#[global] Instance Binding_eq_dec : EqDecision Binding.
Proof. solve_decision. Defined.

(** [bind === binding] *)
Definition same (bind binding : Binding) : bool :=
  bool_decide (ident bind = ident binding).

(** Calls that leave the module, in the order they are made. [Hook]
    carries what the hook can observe of the view when it is entered. *)
Inductive event :=
| On (o : ref) (name : string) (cb ctx : value)
| Off (o : ref) (name : string) (cb ctx : value)
| Hook (name : string) (attached : bool) (registry : option (list Binding))
| Remove
| Trigger (name : string)
| Unbind.

#[global] Instance event_eq_dec : EqDecision event.
Proof. solve_decision. Defined.

(** The object the mixin is copied onto ([this]): its own reference, its
    [bindings] property ([None] while it is still [undefined]), the
    allocator of fresh objects and the trace of external calls. *)
Record Holder := mkHolder {
  self : ref;
  bindings : option (list Binding);
  fresh : ref;
  trace : list event
}.

Definition emit (e : event) (this : Holder) : Holder :=
  mkHolder (self this) (bindings this) (fresh this) (trace this ++ [e]).

Definition set_bindings (bs : option (list Binding)) (this : Holder) : Holder :=
  mkHolder (self this) bs (fresh this) (trace this).

(** The registry as a sequence: an [undefined] property holds no record. *)
Definition registry (this : Holder) : list Binding := default [] (bindings this).

Definition off_of (binding : Binding) : event :=
  Off (obj binding) (eventName binding) (callback binding) (context binding).

Definition on_of (binding : Binding) : event :=
  On (obj binding) (eventName binding) (callback binding) (context binding).

Section Methods.

(** What the emitter's [on]/[off] runs against the holder before it
    returns. A plain [Backbone.Events] object runs nothing. *)
Variable react : event → Holder → Holder.

(** An external call: it is recorded, then its reentrant code runs. *)
Definition external (e : event) (this : Holder) : Holder :=
  react e (emit e this).

Definition bindTo (obj : ref) (eventName : string) (callback context : value)
    (this : Holder) : Binding * Holder :=
  let context := JS.or context (VObj (self this)) in
  let this := external (On obj eventName callback context) this in
  let this :=
    match bindings this with
    | None => set_bindings (Some []) this
    | Some _ => this
    end in
  let binding := mkBinding (fresh this) obj eventName callback context in
  let this :=
    mkHolder (self this) (Some (registry this ++ [binding]))
             (S (fresh this)) (trace this) in
  (binding, this).

Definition unbindFrom (binding : Binding) (this : Holder) : Holder :=
  let this := external (off_of binding) this in
  set_bindings
    (Some (Underscore.reject (bindings this) (λ bind, same bind binding)))
    this.

Definition unbindAll (this : Holder) : Holder :=
  let that := this in
  let bindings := Underscore.map (bindings this) Underscore.identity in
  Underscore.each bindings (λ binding that, unbindFrom binding that) that.

End Methods.

(** The emitter of [Backbone.Events]: [on] and [off] call nothing back. *)
Definition silent : event → Holder → Holder := λ _ this, this.

End BindTo.

Import BindTo.

(** ** The event emitter behind [on]/[off]

The emitter is not part of the module. Its listener table is what the
[On]/[Off] calls of a trace make of it, so it is an interface; a
registration is identified by object, event name, callback and
context. *)

Module Emitter.

Definition key : Type := ref * string * value * value.

Definition key_of (binding : Binding) : key :=
  (obj binding, eventName binding, callback binding, context binding).

Class Listeners (E : Type) := {
  nobody : E;
  subscribe : key → E → E;
  unsubscribe : key → E → E;
  active : E → key → nat
}.

(** An emitter whose [off] takes away one registration per call. *)
Class OneAtATime (E : Type) `{Listeners E} : Prop := {
  active_nobody : ∀ k, active nobody k = 0;
  active_subscribe : ∀ k k' s,
    active (subscribe k s) k' = if decide (k = k') then S (active s k') else active s k';
  active_unsubscribe : ∀ k k' s,
    active (unsubscribe k s) k' = if decide (k = k') then pred (active s k') else active s k'
}.

Definition feed `{Listeners E} (e : event) (s : E) : E :=
  match e with
  | On o name cb ctx => subscribe (o, name, cb, ctx) s
  | Off o name cb ctx => unsubscribe (o, name, cb, ctx) s
  | _ => s
  end.

(** The listener table after the calls of a trace. *)
Definition replay `{Listeners E} (tr : list event) (s : E) : E :=
  fold_left (λ s e, feed e s) tr s.

Fixpoint remove_first (k : key) (s : list key) : list key :=
  match s with
  | [] => []
  | k' :: s => if decide (k = k') then s else k' :: remove_first k s
  end.

Definition occurrences (s : list key) (k : key) : nat :=
  length (filter (λ k', k' = k) s).

(** A table where [off] deletes the oldest matching registration. *)
Definition table : Listeners (list key) := {|
  nobody := [];
  subscribe k s := s ++ [k];
  unsubscribe k s := remove_first k s;
  active := occurrences
|}.

(** A table where [off] deletes every matching registration. *)
Definition sweeping_table : Listeners (list key) := {|
  nobody := [];
  subscribe k s := s ++ [k];
  unsubscribe k s := filter (λ k', k' ≠ k) s;
  active := occurrences
|}.

End Emitter.

(** ** Sequences of [bindTo]/[unbindFrom] calls *)

Module Script.

(** [UnbindOne i] passes the record returned by the [i]-th [Bind] of the
    script (counting from 0) to [unbindFrom]. *)
Inductive op :=
| Bind (o : ref) (name : string) (cb ctx : value)
| UnbindOne (i : nat).

Record session := mkSession {
  holder : Holder;
  handles : list Binding
}.

Definition start (self : ref) : session :=
  mkSession (mkHolder self None 0 []) [].

Definition step (c : op) (s : session) : session :=
  match c with
  | Bind o name cb ctx =>
      let '(binding, this) := bindTo silent o name cb ctx (holder s) in
      mkSession this (handles s ++ [binding])
  | UnbindOne i =>
      match handles s !! i with
      | Some binding => mkSession (unbindFrom silent binding (holder s)) (handles s)
      | None => s
      end
  end.

Definition run (cs : list op) (s : session) : session :=
  fold_left (λ s c, step c s) cs s.

(** The ledger the specification speaks of: the [Bind] calls made so far
    that have not been unbound, each with the number of the call and the
    combination it registered. *)
Record ledger := mkLedger {
  calls : nat;
  pending : list (nat * Emitter.key)
}.

Definition note (self : ref) (c : op) (l : ledger) : ledger :=
  match c with
  | Bind o name cb ctx =>
      mkLedger (S (calls l))
               (pending l ++ [(calls l, (o, name, cb, JS.or ctx (VObj self)))])
  | UnbindOne i =>
      mkLedger (calls l) (filter (λ p, p.1 ≠ i) (pending l))
  end.

Definition not_yet_unbound (self : ref) (cs : list op) : ledger :=
  fold_left (λ l c, note self c l) cs (mkLedger 0 []).

Definition pending_on (l : ledger) (k : Emitter.key) : nat :=
  length (filter (λ p, p.2 = k) (pending l)).

(** Every [UnbindOne] names a record that has been returned and has not
    been passed to [unbindFrom] before: [made] counts the [Bind] calls so
    far, [gone] lists the handles already passed. *)
Fixpoint each_once (cs : list op) (made : nat) (gone : list nat) : bool :=
  match cs with
  | [] => true
  | Bind _ _ _ _ :: cs => each_once cs (S made) gone
  | UnbindOne i :: cs =>
      bool_decide (i < made) && bool_decide (i ∉ gone) && each_once cs made (i :: gone)
  end.

End Script.

(** ** Mobile.View *)

Module View.

(** Plain data as produced by [toJSON], and the functions a helper
    object may carry. *)
#[local] Unset Elimination Schemes.
Inductive data :=
| DNull
| DBool (b : bool)
| DNum (n : Z)
| DStr (s : string)
| DFun (f : ref)
| DArr (items : list data)
| DObj (props : list (string * data)).
#[local] Set Elimination Schemes.

(** A configuration value is the value itself or a function producing
    it; the function is called with the view as [this]. *)
Inductive configurable (A : Type) :=
| Static (a : A)
| Producer (f : value → A).
Arguments Static {A} a.
Arguments Producer {A} f.

(** [_.isFunction(c)] followed by [c = c.call(this)]. *)
Definition resolve {A} (c : configurable A) (this : value) : A :=
  match c with
  | Static a => a
  | Producer f => f this
  end.

(** A model: [toJSON] returns an object, or nothing usable ([None]). *)
Record Model := mkModel { model_toJSON : option (gmap string data) }.

Record Collection := mkCollection { collection_toJSON : data }.

(** The functions found in the map given to [delegateEvents]: an entry
    of the [events] hash, or the closure [configureTriggers] builds,
    which captures [that] and [value]. *)
Inductive handler :=
| Declared (h : value)
| Forward (that : ref) (value : string).

(** A DOM event object, as far as the closure inspects it: whether it
    has a [preventDefault] and a [stopPropagation] member. *)
Record DomEvent := mkDomEvent {
  has_preventDefault : bool;
  has_stopPropagation : bool
}.

Inductive effect :=
| PreventDefault
| StopPropagation
| TriggerOn (view : ref) (name : string).

(** The body of the closure; [e] is [None] when it is called without an
    event object. *)
Definition forward (that : ref) (value : string) (e : option DomEvent) : list effect :=
  (match e with
   | Some ev => if has_preventDefault ev then [PreventDefault] else []
   | None => []
   end)
  ++ (match e with
      | Some ev => if has_stopPropagation ev then [StopPropagation] else []
      | None => []
      end)
  ++ [TriggerOn that value].

Record View := mkView {
  holder : Holder;
  attached : bool;
  model : option Model;
  collection : option Collection;
  templateHelpers : option (configurable (gmap string data));
  triggers : option (configurable (gmap string string));
  events : option (configurable (gmap string handler));
  beforeClose : bool;
  onClose : bool;
  onShowCalled : value
}.

Definition this_of (v : View) : value := VObj (self (holder v)).

Definition with_holder (f : Holder → Holder) (v : View) : View :=
  mkView (f (holder v)) (attached v) (model v) (collection v) (templateHelpers v)
         (triggers v) (events v) (beforeClose v) (onClose v) (onShowCalled v).

Definition mixinTemplateHelpers (this : View) (target : option (gmap string data))
  : gmap string data :=
  let target := default ∅ target in
  let templateHelpers := (λ c, resolve c (this_of this)) <$> templateHelpers this in
  Underscore.extend target templateHelpers.

Definition serializeData (this : View) : gmap string data :=
  let data :=
    match model this with
    | Some m => model_toJSON m
    | None =>
        match collection this with
        | Some c => Some {[ "items" := collection_toJSON c ]}
        | None => None
        end
    end in
  mixinTemplateHelpers this data.

Definition configureTriggers (this : View) : option (gmap string handler) :=
  match triggers this with
  | None => None
  | Some triggers =>
      let that := self (holder this) in
      let triggers := resolve triggers (this_of this) in
      Some (map_fold (λ key value triggerEvents,
                        <[key := Forward that value]> triggerEvents)
                     ∅ triggers)
  end.

(** Returns the map passed on to [Backbone.View.prototype.delegateEvents]. *)
Definition delegateEvents (this : View) (events_arg : option (configurable (gmap string handler)))
  : gmap string handler :=
  let events :=
    match events_arg with
    | Some e => Some e
    | None => events this
    end in
  let events := (λ c, resolve c (this_of this)) <$> events in
  let combinedEvents : gmap string handler := ∅ in
  let triggers := configureTriggers this in
  Underscore.extend (Underscore.extend combinedEvents events) triggers.

(** A hook of the view is entered: the trace keeps what it finds. *)
Definition hook (name : string) (v : View) : View :=
  with_holder (emit (Hook name (attached v) (bindings (holder v)))) v.

(** [Backbone.View.prototype.remove]: the element leaves the document. *)
Definition remove (v : View) : View :=
  let v := with_holder (emit Remove) v in
  mkView (holder v) false (model v) (collection v) (templateHelpers v)
         (triggers v) (events v) (beforeClose v) (onClose v) (onShowCalled v).

Section Methods.

Variable react : event → Holder → Holder.

(** [base] is the view as [Backbone.View]'s constructor leaves it. *)
Definition constructor (base : View) : View :=
  let this := base in
  with_holder
    (λ h, (bindTo react (self h) "show" (onShowCalled this) (VObj (self h)) h).2)
    this.

Definition close (this : View) : View :=
  let this := if beforeClose this then hook "beforeClose" this else this in
  let this := remove this in
  let this := if onClose this then hook "onClose" this else this in
  let this := with_holder (emit (Trigger "close")) this in
  let this := with_holder (unbindAll react) this in
  with_holder (emit Unbind) this.

End Methods.

End View.

(** ** Mobile.AppRouter *)

Module AppRouter.

(** A property as [for (route in appRoutes)] meets it: own or inherited.
    The list given to [processAppRoutes] is the sequence of that
    enumeration ([for_in] below computes it from the object). *)
Record property := mkProperty {
  route_of : string;
  method_of : string;
  own : bool
}.

(** The controller: its identity and what [controller[name]] yields. *)
Record Controller := mkController {
  cref : ref;
  member : string → value
}.

(** [_.bind(method, controller)] *)
Inductive bound := Bound (method : value) (context : ref).

(** The arguments of one [router.route(route, methodName, method)]. *)
Definition registration : Type := string * string * bound.

Inductive thrown :=
| Error (name : string) (message : string)
| TypeError.

Definition NoMethodError (methodName : string) : thrown :=
  Error "NoMethodError" ("Method '" +:+ methodName +:+ "' was not found on the controller").

(** [_.bind(method, controller)]: Underscore binds a function and throws
    a [TypeError] for anything else ([None]). *)
Definition bind (method : value) (controller : Controller) : option bound :=
  if Underscore.isFunction method then Some (Bound method (cref controller)) else None.

(** The second loop of [processAppRoutes]; [router] holds the calls to
    [route] made so far. *)
Fixpoint register (controller : option Controller) (routes : list (string * string))
    (router : list registration) : list registration * option thrown :=
  match routes with
  | [] => (router, None)
  | (route, methodName) :: routes =>
      match controller with
      | None => (router, Some TypeError)
      | Some c =>
          let method := member c methodName in
          if negb (truthy method) then (router, Some (NoMethodError methodName))
          else
            match bind method c with
            | None => (router, Some TypeError)
            | Some method =>
                register controller routes (router ++ [(route, methodName, method)])
            end
      end
  end.

(** The first loop: [routes.unshift([route, appRoutes[route]])]. *)
Definition collect (appRoutes : list property) : list (string * string) :=
  fold_left (λ routes p, if own p then (route_of p, method_of p) :: routes else routes)
            appRoutes [].

Definition processAppRoutes (controller : option Controller) (appRoutes : list property)
    (router : list registration) : list registration * option thrown :=
  let routes := collect appRoutes in
  register controller routes router.

(** The router: [appRoutes] is [this.appRoutes] as [for ... in] enumerates
    it ([None] when the router has none), [registered] the calls to
    [route] made so far. *)
Record Router := mkRouter {
  appRoutes : option (list property);
  controller : option Controller;
  registered : list registration
}.

(** [this] is the router as [Backbone.Router]'s constructor leaves it,
    [options_controller] is [options && options.controller]. *)
Definition constructor (this : Router) (options_controller : option Controller)
  : Router * option thrown :=
  match appRoutes this with
  | Some routes =>
      let controller :=
        match options_controller with
        | Some c => Some c
        | None => controller this
        end in
      let '(router, result) := processAppRoutes controller routes (registered this) in
      (mkRouter (appRoutes this) (AppRouter.controller this) router, result)
  | None => (this, None)
  end.

(** The own entries of an enumeration, in the order of the enumeration. *)
Definition own_entries (appRoutes : list property) : list (string * string) :=
  (λ p, (route_of p, method_of p)) <$> filter (λ p, own p = true) appRoutes.

(** The member named by the entry is truthy: [!method] is false. *)
Definition resolves (c : Controller) (entry : string * string) : Prop :=
  truthy (member c entry.2) = true.

#[global] Instance resolves_dec c entry : Decision (resolves c entry).
Proof. unfold resolves. apply _. Defined.

(** The member named by the entry is a function. *)
Definition callable (c : Controller) (entry : string * string) : Prop :=
  Underscore.isFunction (member c entry.2) = true.

#[global] Instance callable_dec c entry : Decision (callable c entry).
Proof. unfold callable. apply _. Defined.

(** What the loop throws at an entry whose member is not a function. *)
Definition thrown_at (c : Controller) (entry : string * string) : thrown :=
  if truthy (member c entry.2) then TypeError else NoMethodError entry.2.

(** *** The order of [for (route in appRoutes)]

    An object: its own enumerable properties in the order they were
    created in (the order of the object literal), and the enumerable
    properties it inherits. *)
Record object := mkObject {
  own_props : list (string * string);
  inherited_props : list (string * string)
}.

Definition digit_of (a : Ascii.ascii) : option N :=
  let n := Ascii.N_of_ascii a in
  if (48 <=? n)%N && (n <=? 57)%N then Some (n - 48)%N else None.

Fixpoint digits (s : string) (acc : N) : option N :=
  match s with
  | EmptyString => Some acc
  | String a s =>
      match digit_of a with
      | Some d => digits s (10 * acc + d)%N
      | None => None
      end
  end.

(** An array index: the canonical decimal numeral of an integer below
    [2^32 - 1] (no sign, no leading zero). *)
Definition array_index (key : string) : option N :=
  match key with
  | EmptyString => None
  | String a rest =>
      if bool_decide (digit_of a = Some 0%N) && negb (bool_decide (rest = EmptyString))
      then None
      else
        match digits key 0 with
        | Some n => if (n <? 4294967295)%N then Some n else None
        | None => None
        end
  end.

Definition index_of (entry : string * string) : N := default 0%N (array_index entry.1).

Fixpoint insert_index (entry : string * string) (sorted : list (string * string))
  : list (string * string) :=
  match sorted with
  | [] => [entry]
  | e :: rest =>
      if (index_of entry <? index_of e)%N then entry :: sorted
      else e :: insert_index entry rest
  end.

Definition ascending (entries : list (string * string)) : list (string * string) :=
  foldr insert_index [] entries.

(** The own properties as [for ... in] visits them: those whose key is an
    array index first, in ascending numeric order, then the others in the
    order they were created in. *)
Definition own_order (o : object) : list (string * string) :=
  ascending (filter (λ e, is_Some (array_index e.1)) (own_props o))
  ++ filter (λ e, array_index e.1 = None) (own_props o).

(** The whole enumeration: the own properties, then the inherited ones
    that no own property hides. *)
Definition for_in (o : object) : list property :=
  ((λ e, mkProperty e.1 e.2 true) <$> own_order o)
  ++ ((λ e, mkProperty e.1 e.2 false)
        <$> filter (λ e, e.1 ∉ (own_props o).*1) (inherited_props o)).

Definition bind_entry (c : Controller) (entry : string * string) : registration :=
  (entry.1, entry.2, Bound (member c entry.2) (cref c)).

End AppRouter.

(** ** Vocabulary of the statements *)

Module Registry.

(** Identities in the registry are those handed out by the allocator,
    each at most once. *)
Definition wf (this : Holder) : Prop :=
  NoDup (ident <$> registry this) ∧ Forall (λ b, ident b < fresh this) (registry this).

(** The code an emitter runs from inside [on]/[off] takes records out
    of the registry at most (reentrant [unbindFrom]/[unbindAll], or
    nothing at all): it never puts one in. *)
Definition only_removes (react : event → Holder → Holder) : Prop :=
  ∀ e this, registry (react e this) ⊆ registry this.

(** That code puts records into the registry at most (reentrant
    [bindTo], or nothing at all): it never takes one out. *)
Definition only_adds (react : event → Holder → Holder) : Prop :=
  ∀ e this, registry this ⊆ registry (react e this).

(** That code leaves the calls already recorded in the trace alone. *)
Definition only_appends (react : event → Holder → Holder) : Prop :=
  ∀ e this, trace this `prefix_of` trace (react e this).

(** The records of a registry bound on a given combination. *)
Definition bound_on (k : Emitter.key) (l : list Binding) : nat :=
  length (filter (λ b, Emitter.key_of b = k) l).

(** An emitter whose [off] binds a new record on the holder before it
    returns. *)
Definition rebinding : event → Holder → Holder :=
  λ e this,
    match e with
    | Off _ _ _ _ => (bindTo silent 9 "change" (VFun 3) VUndefined this).2
    | _ => this
    end.

(** An emitter whose [off] unbinds everything on the holder. *)
Definition clearing : event → Holder → Holder :=
  λ e this,
    match e with
    | Off _ _ _ _ => unbindAll silent this
    | _ => this
    end.

(** A holder with two records bound on the same combination. *)
Definition twice : Holder :=
  let this := mkHolder 0 None 0 [] in
  let this := (bindTo silent 1 "change" (VFun 2) VUndefined this).2 in
  (bindTo silent 1 "change" (VFun 2) VUndefined this).2.

End Registry.

Import Registry.

(** ** Scripts used in the statements *)

Module Scripts.

Import Script.

(** Two binds on one combination; the first record is unbound twice. *)
Definition stale_unbind : list op :=
  [Bind 1 "change" (VFun 2) VUndefined; Bind 1 "change" (VFun 2) VUndefined;
   UnbindOne 0; UnbindOne 0].

(** The same binds; each record is unbound once. *)
Definition both_unbound : list op :=
  [Bind 1 "change" (VFun 2) VUndefined; Bind 1 "change" (VFun 2) VUndefined;
   UnbindOne 0; UnbindOne 1].

(** Two binds on one combination, one unbind, and a bind on another. *)
Definition mixed : list op :=
  [Bind 1 "change" (VFun 2) VUndefined; Bind 1 "change" (VFun 2) (VObj 0);
   UnbindOne 0; Bind 4 "reset" (VFun 5) (VObj 6)].

Definition on_change : Emitter.key := (1, "change", VFun 2, VObj 0).

(** What links a session to the ledger of its script; [gone] lists the
    handles already passed to [unbindFrom]. *)
Record linked (self : ref) (s : session) (l : ledger) (gone : list nat) : Prop := {
  linked_self : BindTo.self (holder s) = self;
  linked_fresh : fresh (holder s) = calls l;
  linked_length : length (handles s) = calls l;
  linked_handles : ∀ i b, handles s !! i = Some b → ident b = i;
  linked_registry :
    (λ b, (ident b, Emitter.key_of b)) <$> registry (holder s) = pending l;
  linked_members : ∀ b, b ∈ registry (holder s) → handles s !! ident b = Some b;
  linked_NoDup : NoDup (pending l).*1;
  linked_bound : Forall (λ p, p.1 < calls l) (pending l);
  linked_cover : ∀ i, i < calls l → i ∉ gone → i ∈ (pending l).*1
}.

End Scripts.

Import Scripts.

(** ** The view in the words of the specification *)

Module ViewSpec.

Import View.

(** The helper object of a view once resolved; none is the empty one. *)
Definition resolved_helpers (v : View) : gmap string data :=
  match templateHelpers v with
  | Some c => resolve c (this_of v)
  | None => ∅
  end.

(** The base data in the words of the specification: the model's
    serialized form if a model is present, else the collection's wrapped
    as [items], else empty. *)
Definition spec_base_data (v : View) : gmap string data :=
  match model v, collection v with
  | Some m, _ => default ∅ (model_toJSON m)
  | None, Some c => {[ "items" := collection_toJSON c ]}
  | None, None => ∅
  end.

(** The [events] hash [delegateEvents] works with: its argument if one
    is given, the view's own otherwise, resolved. *)
Definition resolved_events (v : View) (events_arg : option (configurable (gmap string handler)))
  : option (gmap string handler) :=
  match events_arg with
  | Some c => Some (resolve c (this_of v))
  | None =>
      match events v with
      | Some c => Some (resolve c (this_of v))
      | None => None
      end
  end.

(** The close sequence in the words of the specification: beforeClose,
    detach, onClose, emit "close", unbind the owned subscriptions, unbind
    the own listeners; a hook is listed with the state it finds. *)
Definition spec_close_steps (v : View) : list event :=
  (if beforeClose v then [Hook "beforeClose" (attached v) (bindings (holder v))] else [])
  ++ [Remove]
  ++ (if onClose v then [Hook "onClose" false (bindings (holder v))] else [])
  ++ [Trigger "close"]
  ++ (off_of <$> registry (holder v))
  ++ [Unbind].

End ViewSpec.

Import ViewSpec.

(** ** Views and routers used in the statements *)

Module Samples.

Import View AppRouter.

(** A view with a model and a collection, helpers given by a function,
    triggers and events on the same descriptor, and both hooks. *)
Definition base_view : View :=
  mkView (mkHolder 0 None 0 []) true
    (Some (mkModel (Some {[ "a" := DNum 1 ]})))
    (Some (mkCollection (DArr [DObj [("x", DNum 1)]])))
    (Some (Producer (λ _, {[ "a" := DNum 2; "fmt" := DFun 7 ]})))
    (Some (Static {[ "click .foo" := "do:foo" ]}))
    (Some (Static {[ "click .foo" := Declared (VStr "onFoo");
                     "click .bar" := Declared (VStr "onBar") ]}))
    true true (VFun 8).

Definition sample_view : View := View.constructor silent base_view.

(** The same view after a call of its [unbindAll]. *)
Definition emptied_view : View := with_holder (unbindAll silent) sample_view.

(** A view with a collection only. *)
Definition list_view : View :=
  mkView (mkHolder 0 None 0 []) true None
    (Some (mkCollection (DArr [DObj [("x", DNum 1)]])))
    None None None false false (VFun 8).

Definition own_route (route method : string) : property := mkProperty route method true.

(** The route table of the specification's example. *)
Definition example_routes : list property :=
  [own_route "a/:id" "showA"; own_route "b" "showB"].

Definition method_table (methods : list (string * value)) : string → value :=
  λ name, default VUndefined (list_to_map (M := gmap string value) methods !! name).

Definition full_controller : Controller :=
  mkController 1 (method_table [("showA", VFun 10); ("showB", VFun 11)]).

(** A controller without [showA]. *)
Definition partial_controller : Controller :=
  mkController 1 (method_table [("showB", VFun 11)]).

Definition example_router (c : Controller) : Router :=
  mkRouter (Some example_routes) (Some c) [].

(** The object literal of the specification's example. *)
Definition example_object : object :=
  mkObject [("a/:id", "showA"); ("b", "showB")] [].

(** A route table with a pattern that is an array index, declared last,
    and a controller with both methods. *)
Definition numbered_object : object :=
  mkObject [("b", "showB"); ("404", "notFound")] [("toString", "inherited")].

Definition numbered_controller : Controller :=
  mkController 1 (method_table [("showB", VFun 11); ("notFound", VFun 12)]).

(** A controller whose [showA] is a string, not a function. *)
Definition sloppy_controller : Controller :=
  mkController 1 (method_table [("showA", VStr "later"); ("showB", VFun 11)]).

End Samples.

Import Samples.

(** ** Mobile.View.getTemplate *)

Module Template.

(** The two places [getTemplate] reads: [this.options] ([None] when the
    view has no options object) with its [template] member, and
    [this.template]; a member that is not set is [VUndefined]. *)
Record Options := mkOptions { options_template : value }.

Record Templated := mkTemplated {
  options : option Options;
  template : value
}.

Definition getTemplate (this : Templated) : value :=
  match options this with
  | Some o =>
      if truthy (options_template o) then options_template o else template this
  | None => template this
  end.

End Template.

(** ** Vocabulary of the further statements *)

Module Lifecycle.

Import Emitter.

(** The listener table [s], fed the calls of the holder's trace, has for
    every combination as many listeners as the registry has records. *)
Definition in_step `{Listeners E} (s : E) (this : Holder) : Prop :=
  ∀ k, active (replay (trace this) s) k = bound_on k (registry this).

(** The records stand in the order they were allocated in, all of them
    below the allocator. *)
Definition in_order (this : Holder) : Prop :=
  StronglySorted lt (ident <$> registry this)
  ∧ Forall (λ b, ident b < fresh this) (registry this).

(** Two views that differ in their [events] only. *)
Definition with_events (ev : option (View.configurable (gmap string View.handler)))
    (v : View.View) : View.View :=
  View.mkView (View.holder v) (View.attached v) (View.model v) (View.collection v)
              (View.templateHelpers v) (View.triggers v) ev
              (View.beforeClose v) (View.onClose v) (View.onShowCalled v).

(** Two routers that differ in their own [controller] only. *)
Definition with_controller (c : option AppRouter.Controller) (r : AppRouter.Router)
  : AppRouter.Router :=
  AppRouter.mkRouter (AppRouter.appRoutes r) c (AppRouter.registered r).

(** A script with a handle never returned, a stale unbind and repeats. *)
Definition careless : list Script.op :=
  [Script.UnbindOne 3; Script.Bind 1 "change" (VFun 2) VUndefined;
   Script.Bind 1 "change" (VFun 2) VUndefined; Script.UnbindOne 0;
   Script.UnbindOne 0; Script.Bind 4 "reset" (VFun 5) (VObj 6)].

(** A router without any controller. *)
Definition orphan_router : AppRouter.Router :=
  AppRouter.mkRouter (Some example_routes) None [].

(** A route table with an inherited property between two own ones. *)
Definition mixed_routes : list AppRouter.property :=
  [own_route "a/:id" "showA"; AppRouter.mkProperty "toString" "inherited" false;
   own_route "b" "showB"].

End Lifecycle.

Import Lifecycle.

(** * Properties *)

(** ** The registry under a silent emitter *)

Module BindToFacts.

Lemma reject_same (l : option (list Binding)) (binding : Binding) :
  Underscore.reject l (λ bind, same bind binding)
  = filter (λ bind, ident bind ≠ ident binding) (default [] l).
Proof.
  unfold Underscore.reject, same. apply list_filter_iff. intros bind.
  rewrite bool_decide_eq_false. done.
Qed.

Lemma unbindFrom_silent (binding : Binding) (this : Holder) :
  unbindFrom silent binding this
  = mkHolder (self this)
             (Some (filter (λ bind, ident bind ≠ ident binding) (registry this)))
             (fresh this) (trace this ++ [off_of binding]).
Proof. unfold unbindFrom, external, silent, set_bindings. by rewrite reject_same. Qed.

Lemma bindTo_silent o name cb ctx (this : Holder) :
  bindTo silent o name cb ctx this
  = let binding := mkBinding (fresh this) o name cb (JS.or ctx (VObj (self this))) in
    (binding,
     mkHolder (self this) (Some (registry this ++ [binding])) (S (fresh this))
              (trace this ++ [on_of binding])).
Proof. unfold bindTo, external, silent, registry. by destruct this as [s [bs|] f tr]. Qed.

Lemma filter_absent (l : list Binding) (binding : Binding) :
  ident binding ∉ ident <$> l →
  filter (λ bind, ident bind ≠ ident binding) l = l.
Proof.
  induction l as [|x l IH]; [done|]. rewrite fmap_cons, not_elem_of_cons.
  intros [Hx Hl]. rewrite filter_cons_True by congruence. by rewrite IH.
Qed.

Lemma filter_present (before after : list Binding) (binding : Binding) :
  NoDup (ident <$> (before ++ binding :: after)) →
  filter (λ bind, ident bind ≠ ident binding) (before ++ binding :: after)
  = before ++ after.
Proof.
  rewrite fmap_app, fmap_cons. intros Hnd.
  apply NoDup_app in Hnd as (_ & Hdisj & Hnd).
  apply NoDup_cons in Hnd as [Hafter _].
  rewrite filter_app, filter_cons_False by (intros H; by apply H).
  rewrite !filter_absent; [done|done|].
  intros Hin. apply (Hdisj _ Hin). left.
Qed.

Lemma wf_bindTo o name cb ctx (this : Holder) :
  wf this → wf (bindTo silent o name cb ctx this).2.
Proof.
  intros [Hnd Hlt]. rewrite bindTo_silent. unfold wf, registry. simpl.
  fold (registry this). split.
  - rewrite fmap_app. apply NoDup_app. split_and!; [done| |apply NoDup_singleton].
    intros i Hi. simpl. rewrite list_elem_of_singleton. intros ->.
    apply list_elem_of_fmap in Hi as (b & Hb & Hin).
    rewrite Forall_forall in Hlt. specialize (Hlt b Hin). simpl in *. lia.
  - apply Forall_app. split.
    + eapply Forall_impl; [exact Hlt|]. simpl. lia.
    + apply Forall_singleton. simpl. lia.
Qed.

Lemma wf_unbindFrom (binding : Binding) (this : Holder) :
  wf this → wf (unbindFrom silent binding this).
Proof.
  intros [Hnd Hlt]. rewrite unbindFrom_silent. unfold wf, registry. simpl.
  fold (registry this). split.
  - eapply sublist_NoDup; [exact Hnd|]. apply fmap_sublist, sublist_filter.
  - rewrite Forall_forall in Hlt. apply Forall_forall. intros b Hb.
    apply list_elem_of_filter in Hb as [_ Hb]. by apply Hlt.
Qed.

End BindToFacts.

Module UnbindFacts.

Import BindToFacts.

(** C10: whatever record is passed to [unbindFrom], the emitter's [off]
    is called exactly once with the record's event name, callback and
    context on the record's source object, also when the record is not
    in the registry; a second call with a record already removed calls
    [off] a second time and removes nothing. *)
Theorem unbindFrom_calls_off_unconditionally (binding : Binding) (this : Holder) :
  trace (unbindFrom silent binding this)
  = trace this ++ [Off (obj binding) (eventName binding) (callback binding) (context binding)]
  ∧ (ident binding ∉ ident <$> registry this →
     registry (unbindFrom silent binding this) = registry this)
  ∧ (let once := unbindFrom silent binding this in
     trace (unbindFrom silent binding once)
     = trace this ++ [off_of binding; off_of binding]
     ∧ registry (unbindFrom silent binding once) = registry once).
Proof.
  rewrite !unbindFrom_silent. cbn [trace registry bindings default].
  fold (registry this). split_and!.
  - done.
  - apply filter_absent.
  - rewrite unbindFrom_silent. cbn [trace]. by rewrite <-app_assoc.
  - rewrite unbindFrom_silent. cbn [registry bindings default].
    apply list_filter_filter_l. tauto.
Qed.

Lemma unbindFrom_calls_off_unconditionally_witness :
  let stale := mkBinding 5 1 "change" (VFun 2) (VObj 0) in
  let this := mkHolder 0 (Some [mkBinding 0 1 "change" (VFun 2) (VObj 0)]) 6 [] in
  trace (unbindFrom silent stale this) = [off_of stale]
  ∧ registry (unbindFrom silent stale this) = registry this.
Proof.
  intros stale this.
  destruct (unbindFrom_calls_off_unconditionally stale this) as (Htrace & Hkeep & _).
  split; [exact Htrace|]. apply Hkeep. simpl.
  rewrite list_elem_of_singleton. lia.
Defined.

(** C6: [unbindFrom] calls [off] on the record's source object with the
    event name, callback and context the record was bound with, and takes
    out of the registry the record of that identity and no other: the
    records before and after it stay, in order, also those with the same
    four fields; a record that is not in the registry removes nothing. *)
Theorem unbindFrom_removes_that_record (binding : Binding) (this : Holder) :
  NoDup (ident <$> registry this) →
  trace (unbindFrom silent binding this)
  = trace this ++ [Off (obj binding) (eventName binding) (callback binding) (context binding)]
  ∧ (∀ o name cb ctx that,
       (bindTo silent o name cb ctx that).1 = binding →
       trace (bindTo silent o name cb ctx that).2
       = trace that ++ [On (obj binding) (eventName binding) (callback binding) (context binding)])
  ∧ registry (unbindFrom silent binding this)
    = filter (λ bind, ident bind ≠ ident binding) (registry this)
  ∧ (∀ before after,
       registry this = before ++ binding :: after →
       registry (unbindFrom silent binding this) = before ++ after)
  ∧ (ident binding ∉ ident <$> registry this →
     registry (unbindFrom silent binding this) = registry this).
Proof.
  intros Hnd. rewrite unbindFrom_silent. cbn [trace registry bindings default].
  fold (registry this). split_and!.
  - done.
  - intros o name cb ctx that <-. by rewrite bindTo_silent.
  - done.
  - intros before after Heq. rewrite Heq in Hnd |- *. by apply filter_present.
  - apply filter_absent.
Qed.

Lemma unbindFrom_removes_that_record_witness :
  let first := mkBinding 0 1 "change" (VFun 2) (VObj 0) in
  let second := mkBinding 1 1 "change" (VFun 2) (VObj 0) in
  let stale := mkBinding 5 1 "change" (VFun 2) (VObj 0) in
  registry (unbindFrom silent first twice) = [second]
  ∧ registry (unbindFrom silent stale twice) = registry twice.
Proof.
  intros first second stale.
  assert (Hnd : NoDup (ident <$> registry twice)).
  { vm_compute. apply NoDup_cons. split; [|apply NoDup_singleton].
    rewrite list_elem_of_singleton. lia. }
  destruct (unbindFrom_removes_that_record first twice Hnd) as (_ & _ & _ & Hcut & _).
  destruct (unbindFrom_removes_that_record stale twice Hnd) as (_ & _ & _ & _ & Hkeep).
  split.
  - apply (Hcut [] [second]). reflexivity.
  - apply Hkeep. change (5 ∉ [0; 1]).
    rewrite elem_of_cons, list_elem_of_singleton. lia.
Defined.

End UnbindFacts.

(** ** Listener tables *)

Module EmitterFacts.

Import Emitter.

Lemma replay_app `{Listeners E} (tr1 tr2 : list event) (s : E) :
  replay (tr1 ++ tr2) s = replay tr2 (replay tr1 s).
Proof. apply fold_left_app. Qed.

(** Replaying the [off] of every record of [l] takes away, for each
    combination, as many registrations as [l] has records on it. *)
Lemma active_replay_offs `{OneAtATime E} (l : list Binding) (s : E) (k : key) :
  active (replay (off_of <$> l) s) k = active s k - bound_on k l.
Proof.
  revert s. induction l as [|b l IH]; intros s.
  - unfold bound_on. simpl. lia.
  - rewrite fmap_cons. change (replay (off_of b :: (off_of <$> l)) s)
      with (replay (off_of <$> l) (unsubscribe (key_of b) s)).
    rewrite IH, active_unsubscribe. unfold bound_on. rewrite filter_cons.
    destruct (decide (key_of b = k)); simpl; lia.
Qed.

Lemma occurrences_app (s1 s2 : list key) (k : key) :
  occurrences (s1 ++ s2) k = occurrences s1 k + occurrences s2 k.
Proof. unfold occurrences. by rewrite filter_app, length_app. Qed.

Lemma occurrences_remove_first (k k' : key) (s : list key) :
  occurrences (remove_first k s) k'
  = if decide (k = k') then pred (occurrences s k') else occurrences s k'.
Proof.
  unfold occurrences. induction s as [|x s IH]; simpl.
  - by destruct (decide (k = k')).
  - destruct (decide (k = x)) as [->|Hne].
    + rewrite filter_cons. destruct (decide (x = k')); done.
    + rewrite !filter_cons. destruct (decide (x = k')) as [->|Hx]; simpl.
      * rewrite IH. destruct (decide (k = k')); [congruence|done].
      * exact IH.
Qed.

(** The table that deletes one registration per [off] is one-at-a-time. *)
Lemma table_one_at_a_time : @OneAtATime (list key) table.
Proof.
  split.
  - done.
  - intros k k' s. simpl. rewrite occurrences_app. unfold occurrences at 2.
    rewrite filter_cons, filter_nil.
    destruct (decide (k = k')); simpl; lia.
  - intros k k' s. apply occurrences_remove_first.
Qed.

End EmitterFacts.

(** ** [unbindAll] *)

Module UnbindAllFacts.

Import BindToFacts Emitter EmitterFacts.

Lemma unbindAll_unfold react (this : Holder) :
  unbindAll react this
  = fold_left (λ that binding, unbindFrom react binding that) (registry this) this.
Proof.
  unfold unbindAll, Underscore.each, Underscore.map, Underscore.identity, registry.
  by rewrite list_fmap_id.
Qed.

Lemma each_silent (l : list Binding) (this : Holder) :
  fold_left (λ that binding, unbindFrom silent binding that) l this
  = mkHolder (self this)
      (match l with
       | [] => bindings this
       | _ => Some (filter (λ bind, ident bind ∉ ident <$> l) (registry this))
       end)
      (fresh this) (trace this ++ (off_of <$> l)).
Proof.
  revert this. induction l as [|b l IH]; intros this.
  - simpl. rewrite app_nil_r. by destruct this.
  - cbn [fold_left]. rewrite IH, unbindFrom_silent.
    cbn [self fresh trace registry bindings default]. fold (registry this).
    rewrite fmap_cons, <-app_assoc. f_equal.
    assert (filter (λ bind, ident bind ∉ ident <$> l)
              (filter (λ bind, ident bind ≠ ident b) (registry this))
            = filter (λ bind, ident bind ∉ ident b :: (ident <$> l)) (registry this))
      as Hfilter.
    { rewrite list_filter_filter. apply list_filter_iff. intros x.
      rewrite not_elem_of_cons. tauto. }
    unfold id. destruct l; [|by rewrite Hfilter].
    f_equal. apply list_filter_iff. intros x. simpl.
    rewrite list_elem_of_singleton. tauto.
Qed.

Lemma silent_only_removes : only_removes silent.
Proof. by intros e this. Qed.

Lemma unbindFrom_shrinks react (binding : Binding) (this : Holder) :
  only_removes react →
  registry (unbindFrom react binding this)
  ⊆ filter (λ bind, ident bind ≠ ident binding) (registry this).
Proof.
  intros Hreact. unfold unbindFrom, external, set_bindings.
  cbn [registry bindings default]. rewrite reject_same.
  intros x Hx. apply list_elem_of_filter in Hx as [Hx Hin].
  apply list_elem_of_filter. split; [done|].
  by apply (Hreact (off_of binding) (emit (off_of binding) this)).
Qed.

Lemma each_shrinks react (l : list Binding) (this : Holder) :
  only_removes react →
  registry (fold_left (λ that binding, unbindFrom react binding that) l this)
  ⊆ filter (λ bind, ident bind ∉ ident <$> l) (registry this).
Proof.
  intros Hreact. revert this. induction l as [|b l IH]; intros this x Hx.
  - simpl in *. apply list_elem_of_filter. split; [apply not_elem_of_nil|done].
  - cbn [fold_left] in Hx. apply IH in Hx.
    apply list_elem_of_filter in Hx as [Hl Hx].
    apply unbindFrom_shrinks in Hx; [|done].
    apply list_elem_of_filter in Hx as [Hb Hx].
    apply list_elem_of_filter. split; [|done].
    rewrite fmap_cons, not_elem_of_cons. done.
Qed.

Lemma unbindAll_empty react (this : Holder) :
  only_removes react → registry (unbindAll react this) = [].
Proof.
  intros Hreact. rewrite unbindAll_unfold.
  apply elem_of_nil_inv. intros x Hx. apply each_shrinks in Hx; [|done].
  apply list_elem_of_filter in Hx as [Hout Hin].
  apply Hout, list_elem_of_fmap. by exists x.
Qed.

Lemma each_calls_off react (l : list Binding) (this : Holder) :
  only_appends react →
  ∃ tr, trace (fold_left (λ that binding, unbindFrom react binding that) l this)
        = trace this ++ tr
        ∧ ∀ b, b ∈ l → off_of b ∈ tr.
Proof.
  intros Hreact. revert this. induction l as [|b l IH]; intros this.
  - exists []. split; [by rewrite app_nil_r|]. intros b Hb. by apply elem_of_nil in Hb.
  - cbn [fold_left]. destruct (IH (unbindFrom react b this)) as (tr2 & Htr2 & Hall).
    destruct (Hreact (off_of b) (emit (off_of b) this)) as [tr1 Htr1].
    exists ([off_of b] ++ tr1 ++ tr2). split.
    + rewrite Htr2. unfold unbindFrom, external, set_bindings. cbn [trace].
      rewrite Htr1. cbn [emit trace]. by rewrite <-!app_assoc.
    + intros b' Hb'. apply elem_of_cons in Hb' as [->|Hb'].
      * apply elem_of_app. left. by apply list_elem_of_singleton.
      * rewrite !elem_of_app. right. right. by apply Hall.
Qed.

Lemma each_keeps react (l : list Binding) (this : Holder) (x : Binding) :
  only_adds react →
  x ∈ registry this → ident x ∉ ident <$> l →
  x ∈ registry (fold_left (λ that binding, unbindFrom react binding that) l this).
Proof.
  intros Hreact. revert this. induction l as [|b l IH]; intros this Hx Hout; [done|].
  rewrite fmap_cons, not_elem_of_cons in Hout. destruct Hout as [Hb Hl].
  cbn [fold_left]. apply IH; [|done].
  unfold unbindFrom, external, set_bindings. cbn [registry bindings default].
  rewrite reject_same. apply list_elem_of_filter. split; [done|].
  by apply (Hreact (off_of b) (emit (off_of b) this)).
Qed.


Lemma clearing_only_removes : only_removes clearing.
Proof.
  intros e this. destruct e; try done. simpl.
  rewrite unbindAll_empty by apply silent_only_removes. set_solver.
Qed.

Lemma clearing_only_appends : only_appends clearing.
Proof.
  intros e this. destruct e; try done. simpl.
  rewrite unbindAll_unfold, each_silent. by eexists.
Qed.

Lemma rebinding_only_adds : only_adds rebinding.
Proof.
  intros e this. unfold rebinding. destruct e; try done. rewrite bindTo_silent.
  cbn [snd registry bindings default]. unfold id. fold (registry this).
  intros x Hx. apply elem_of_app. by left.
Qed.

Lemma rebinding_only_appends : only_appends rebinding.
Proof.
  intros e this. unfold rebinding. destruct e; try done. rewrite bindTo_silent.
  cbn [snd trace]. by eexists.
Qed.



End UnbindAllFacts.

(** ** Sequences of binds and unbinds against the ledger *)

Module ScriptFacts.

Import Script BindToFacts Emitter EmitterFacts.

(** Striking the one entry of a call from the ledger lowers the count of
    its combination by one and leaves the other counts alone. *)
Lemma strike_count (i : nat) (k0 k : key) (l : list (nat * key)) :
  NoDup l.*1 → (i, k0) ∈ l →
  length (filter (λ p, p.2 = k) (filter (λ p, p.1 ≠ i) l))
  = if decide (k0 = k) then pred (length (filter (λ p, p.2 = k) l))
    else length (filter (λ p, p.2 = k) l).
Proof.
  induction l as [|[j kj] l IH]; intros Hnd Hin.
  - by apply elem_of_nil in Hin.
  - rewrite fmap_cons in Hnd. apply NoDup_cons in Hnd as [Hj Hnd]. simpl in Hj.
    apply elem_of_cons in Hin as [[= <- <-]|Hin].
    + rewrite filter_cons_False by (simpl; tauto).
      assert (filter (λ p : nat * key, p.1 ≠ i) l = l) as ->.
      { clear IH Hnd. induction l as [|[j' k'] l IH]; [done|].
        rewrite fmap_cons, not_elem_of_cons in Hj. destruct Hj as [Hne Hj].
        rewrite filter_cons_True by (simpl in *; congruence). by rewrite IH. }
      rewrite (filter_cons (λ p : nat * key, p.2 = k)). simpl.
      destruct (decide (k0 = k)); done.
    + assert (j ≠ i) as Hji.
      { intros ->. apply Hj. apply list_elem_of_fmap. by exists (i, k0). }
      rewrite filter_cons_True by done.
      rewrite !(filter_cons (λ p : nat * key, p.2 = k)). simpl.
      specialize (IH Hnd Hin).
      destruct (decide (kj = k)); simpl; rewrite IH; [|done].
      destruct (decide (k0 = k)) as [->|]; [|done].
      assert (0 < length (filter (λ p : nat * key, p.2 = k) l)); [|lia].
      assert ((i, k) ∈ filter (λ p : nat * key, p.2 = k) l) as Hmem
          by (by apply list_elem_of_filter).
      revert Hmem. generalize (filter (λ p : nat * key, p.2 = k) l).
      intros [|p ps] Hmem; [by apply elem_of_nil in Hmem|simpl; lia].
Qed.

Lemma fmap_filter_ident (i : nat) (l : list Binding) :
  (λ b, (ident b, key_of b)) <$> filter (λ bind, ident bind ≠ i) l
  = filter (λ p, p.1 ≠ i) ((λ b, (ident b, key_of b)) <$> l).
Proof.
  induction l as [|b l IH]; [done|]. rewrite fmap_cons.
  destruct (decide (ident b = i)) as [Heq|Hne].
  - rewrite !filter_cons_False by (simpl; intros Hne; by apply Hne). exact IH.
  - rewrite !filter_cons_True by done. by rewrite fmap_cons, IH.
Qed.

Lemma linked_start (self : ref) : linked self (start self) (mkLedger 0 []) [].
Proof.
  split; simpl; try done.
  - intros b Hb. by apply elem_of_nil in Hb.
  - apply NoDup_nil_2.
  - lia.
Qed.

Lemma linked_bind self s l gone o name cb ctx :
  linked self s l gone →
  linked self (step (Bind o name cb ctx) s) (note self (Bind o name cb ctx) l) gone.
Proof.
  intros [Hself Hfresh Hlen Hhandles Hreg Hmem Hnd Hbound Hcover].
  unfold step. rewrite bindTo_silent. cbn zeta.
  split; cbn [holder handles BindTo.self fresh registry bindings default note calls pending];
    unfold id.
  - done.
  - by rewrite Hfresh.
  - rewrite length_app. simpl. lia.
  - intros i b Hi. destruct (decide (i < length (handles s))) as [Hlt|Hge].
    + rewrite lookup_app_l in Hi by done. by apply Hhandles.
    + rewrite lookup_app_r in Hi by lia.
      destruct (i - length (handles s)) as [|n] eqn:Hn; [|by destruct n].
      injection Hi as <-. simpl. lia.
  - fold (registry (holder s)). rewrite fmap_app, Hreg. simpl.
    unfold key_of. simpl. by rewrite Hfresh, Hself.
  - fold (registry (holder s)). intros b Hb.
    apply elem_of_app in Hb as [Hb|Hb].
    + apply Hmem in Hb as Hb'. by apply lookup_app_l_Some.
    + apply list_elem_of_singleton in Hb as ->. simpl.
      rewrite lookup_app_r by lia. rewrite Hfresh, Hlen, Nat.sub_diag. done.
  - rewrite fmap_app. apply NoDup_app. split_and!; [done| |apply NoDup_singleton].
    intros i Hi. simpl. rewrite list_elem_of_singleton. intros ->.
    apply list_elem_of_fmap in Hi as (p & Hp & Hin).
    rewrite Forall_forall in Hbound. specialize (Hbound p Hin). simpl in *. lia.
  - apply Forall_app. split.
    + eapply Forall_impl; [exact Hbound|]. simpl. lia.
    + apply Forall_singleton. simpl. lia.
  - intros i Hi Hgone. rewrite fmap_app. apply elem_of_app.
    destruct (decide (i = calls l)) as [->|Hne].
    + right. simpl. apply list_elem_of_singleton. done.
    + left. apply Hcover; [lia|done].
Qed.

Lemma linked_unbind self s l gone i :
  linked self s l gone → i < calls l →
  ∃ b, handles s !! i = Some b ∧ ident b = i
       ∧ (i ∉ gone → (i, key_of b) ∈ pending l)
       ∧ linked self (step (UnbindOne i) s) (note self (UnbindOne i) l) (i :: gone).
Proof.
  intros [Hself Hfresh Hlen Hhandles Hreg Hmem Hnd Hbound Hcover] Hi.
  destruct (lookup_lt_is_Some_2 (handles s) i) as [b Hb]; [lia|].
  pose proof (Hhandles _ _ Hb) as Hident.
  exists b. split_and!; [done|done| |].
  - intros Hgone. specialize (Hcover i Hi Hgone).
    apply list_elem_of_fmap in Hcover as ([j kj] & Hj & Hin). simpl in Hj. subst j.
    rewrite <-Hreg in Hin. apply list_elem_of_fmap in Hin as (b' & Heq & Hin').
    injection Heq as Hib Hk. pose proof (Hmem _ Hin') as Hh.
    rewrite <-Hib, Hb in Hh. injection Hh as ->.
    rewrite <-Hreg. apply list_elem_of_fmap. exists b'. split; [by rewrite Hib|done].
  - unfold step. rewrite Hb, unbindFrom_silent.
    split; cbn [holder handles BindTo.self fresh registry bindings default note calls pending];
    unfold id.
    + done.
    + done.
    + done.
    + done.
    + fold (registry (holder s)). by rewrite Hident, fmap_filter_ident, Hreg.
    + fold (registry (holder s)). intros b' Hb'.
      apply list_elem_of_filter in Hb' as [_ Hb']. by apply Hmem.
    + eapply sublist_NoDup; [exact Hnd|]. apply fmap_sublist, sublist_filter.
    + rewrite Forall_forall in Hbound. apply Forall_forall. intros p Hp.
      apply list_elem_of_filter in Hp as [_ Hp]. by apply Hbound.
    + intros j Hj Hgone. apply not_elem_of_cons in Hgone as [Hne Hgone].
      specialize (Hcover j Hj Hgone).
      apply list_elem_of_fmap in Hcover as (p & -> & Hin).
      apply list_elem_of_fmap. exists p. split; [done|].
      by apply list_elem_of_filter.
Qed.

(** Along a script that passes every handle at most once, the session
    stays linked to the ledger and the listener table counts what the
    ledger counts. *)
Lemma run_linked `{OneAtATime E} (self : ref) (cs : list op) :
  ∀ s l gone,
    linked self s l gone →
    (∀ k, active (replay (trace (holder s)) nobody) k = pending_on l k) →
    each_once cs (calls l) gone = true →
    (∃ gone', linked self (run cs s) (fold_left (λ l c, note self c l) cs l) gone')
    ∧ ∀ k, active (replay (trace (holder (run cs s))) nobody) k
           = pending_on (fold_left (λ l c, note self c l) cs l) k.
Proof.
  induction cs as [|c cs IH]; intros s l gone Hlinked Hcount Honce.
  - split; [by exists gone|done].
  - cbn [run fold_left]. destruct c as [o name cb ctx|i]; cbn [each_once] in Honce.
    + apply (IH _ _ gone).
      * by apply linked_bind.
      * intros k. unfold step. rewrite bindTo_silent. cbn zeta.
        cbn [holder trace note pending]. rewrite replay_app.
        change (replay [on_of _] ?t) with (subscribe (o, name, cb, JS.or ctx (VObj (BindTo.self (holder s)))) t).
        rewrite active_subscribe, Hcount. unfold pending_on. cbn [pending].
        rewrite filter_app, length_app, filter_cons, filter_nil. cbn [snd].
        rewrite (linked_self _ _ _ _ Hlinked).
        repeat case_decide; cbn [length]; (lia || congruence).
      * done.
    + apply andb_true_iff in Honce as [Hhead Honce].
      apply andb_true_iff in Hhead as [Hmade Hgone].
      apply bool_decide_eq_true in Hmade, Hgone.
      destruct (linked_unbind _ _ _ _ i Hlinked Hmade) as (b & Hb & Hident & Hin & Hnext).
      apply (IH _ _ (i :: gone)).
      * done.
      * intros k. unfold step. rewrite Hb, unbindFrom_silent.
        cbn [holder trace note pending]. rewrite replay_app.
        change (replay [off_of b] ?t) with (unsubscribe (key_of b) t).
        rewrite active_unsubscribe, Hcount. unfold pending_on. cbn [pending].
        rewrite (strike_count i (key_of b)); [done| |by apply Hin].
        apply (linked_NoDup _ _ _ _ Hlinked).
      * done.
Qed.

End ScriptFacts.

Module LedgerFacts.

Import Script BindToFacts Emitter EmitterFacts ScriptFacts.

(** C5 (amended): [bindTo] registers the listener with [on], appends a
    record of a fresh identity to the registry and returns it, the
    context being the holder itself when none (or a falsy one) is given;
    a second call with the same arguments appends a second, distinct
    record. Along every sequence of [bindTo]/[unbindFrom] calls that
    passes each returned record to [unbindFrom] at most once, the
    registry holds exactly the records of the bind calls not yet unbound,
    and on an emitter whose [off] drops one registration per call the
    number of listeners on a combination is the number of those calls
    with that combination. *)
Theorem listeners_follow_ledger :
  (∀ o name cb ctx this,
     let binding := (bindTo silent o name cb ctx this).1 in
     let this' := (bindTo silent o name cb ctx this).2 in
     binding = mkBinding (fresh this) o name cb (JS.or ctx (VObj (self this)))
     ∧ (truthy ctx = false → context binding = VObj (self this))
     ∧ registry this' = registry this ++ [binding]
     ∧ trace this' = trace this ++ [on_of binding]
     ∧ (wf this → (ident binding ∉ ident <$> registry this) ∧ wf this')
     ∧ (let again := (bindTo silent o name cb ctx this').1 in
        key_of again = key_of binding
        ∧ ident again ≠ ident binding
        ∧ registry (bindTo silent o name cb ctx this').2
          = registry this ++ [binding; again]))
  ∧ (∀ E (L : Listeners E), OneAtATime E →
     ∀ (self : ref) (cs : list op),
       each_once cs 0 [] = true →
       (λ b, (ident b, key_of b)) <$> registry (holder (run cs (start self)))
       = pending (not_yet_unbound self cs)
       ∧ ∀ k, active (replay (trace (holder (run cs (start self)))) nobody) k
              = pending_on (not_yet_unbound self cs) k).
Proof.
  split.
  - intros o name cb ctx this. rewrite bindTo_silent. cbn zeta.
    cbn [fst snd registry bindings default trace context]. unfold id.
    fold (registry this). split_and!.
    + done.
    + unfold JS.or. by intros ->.
    + done.
    + done.
    + intros Hwf. split.
      * destruct Hwf as [_ Hlt]. intros Hin.
        apply list_elem_of_fmap in Hin as (b & Hb & Hin).
        rewrite Forall_forall in Hlt. specialize (Hlt b Hin). simpl in Hb. lia.
      * pose proof (wf_bindTo o name cb ctx this Hwf) as Hwf'.
        by rewrite bindTo_silent in Hwf'.
    + by rewrite bindTo_silent.
    + rewrite bindTo_silent. simpl. lia.
    + rewrite bindTo_silent. cbn zeta.
      cbn [fst snd registry bindings default ident self fresh]. unfold id.
      by rewrite <-app_assoc.
  - intros E L HL self cs Honce.
    destruct (run_linked self cs (start self) (mkLedger 0 []) [])
      as [[gone Hlinked] Hcount].
    + apply linked_start.
    + intros k. simpl. apply active_nobody.
    + exact Honce.
    + split; [apply (linked_registry _ _ _ _ Hlinked)|exact Hcount].
Qed.

Lemma listeners_follow_ledger_witness :
  @active _ table
    (@replay _ table (trace (holder (run mixed (start 0)))) (@nobody _ table))
    on_change
  = 1
  ∧ pending_on (not_yet_unbound 0 mixed) on_change = 1
  ∧ context (bindTo silent 1 "change" (VFun 2) VUndefined twice).1 = VObj 0
  ∧ ident (bindTo silent 1 "change" (VFun 2) VUndefined twice).1 ∉ ident <$> registry twice.
Proof.
  destruct listeners_follow_ledger as [Hbind Hledger].
  destruct (Hledger _ table table_one_at_a_time 0 mixed) as [_ Hcount].
  - vm_compute. reflexivity.
  - destruct (Hbind 1 "change" (VFun 2) VUndefined twice)
      as (_ & Hcontext & _ & _ & Hfresh & _).
    split_and!.
    + rewrite Hcount. vm_compute. reflexivity.
    + vm_compute. reflexivity.
    + apply Hcontext. reflexivity.
    + apply Hfresh. split.
      * vm_compute. apply NoDup_cons. split; [|apply NoDup_singleton].
        rewrite list_elem_of_singleton. lia.
      * vm_compute. repeat constructor.
Defined.

(** C5 as stated fails: after two binds on one combination, passing the
    first record to [unbindFrom] twice calls [off] twice, so that no
    listener is left although the second bind has not been unbound. *)
Lemma stale_unbind_loses_a_listener :
  @active _ table
    (@replay _ table (trace (holder (run stale_unbind (start 0)))) (@nobody _ table))
    on_change
  = 0
  ∧ pending_on (not_yet_unbound 0 stale_unbind) on_change = 1
  ∧ @active _ table
      (@replay _ table (trace (holder (run stale_unbind (start 0)))) (@nobody _ table))
      on_change
    ≠ pending_on (not_yet_unbound 0 stale_unbind) on_change.
Proof. split_and!; [vm_compute; reflexivity|vm_compute; reflexivity|vm_compute; discriminate]. Qed.

(** The same holds of every emitter: it sees the same calls whether the
    second [unbindFrom] is given the first record again or the second
    one, while the ledger differs. *)
Lemma no_table_follows_every_script `{Listeners E} (s : E) :
  ¬ ∀ cs k, active (replay (trace (holder (run cs (start 0)))) s) k
            = pending_on (not_yet_unbound 0 cs) k.
Proof.
  intros Hall.
  pose proof (Hall stale_unbind on_change) as Hstale.
  pose proof (Hall both_unbound on_change) as Hboth.
  assert (trace (holder (run stale_unbind (start 0)))
          = trace (holder (run both_unbound (start 0)))) as Htrace
      by (vm_compute; reflexivity).
  rewrite Htrace, Hboth in Hstale. vm_compute in Hstale. discriminate.
Qed.

(** An emitter whose [off] deletes every matching registration loses
    the listener of the second bind at the first unbind already. *)
Lemma sweeping_table_drops_both :
  let cs := [Bind 1 "change" (VFun 2) VUndefined; Bind 1 "change" (VFun 2) VUndefined;
             UnbindOne 0] in
  @active _ sweeping_table
    (@replay _ sweeping_table (trace (holder (run cs (start 0)))) (@nobody _ sweeping_table))
    on_change
  = 0
  ∧ pending_on (not_yet_unbound 0 cs) on_change = 1.
Proof. split; vm_compute; reflexivity. Qed.

End LedgerFacts.

(** ** The route compiler *)

Module AppRouterFacts.

Import AppRouter.

Lemma collect_from (table : list property) (routes : list (string * string)) :
  fold_left (λ routes p, if own p then (route_of p, method_of p) :: routes else routes)
            table routes
  = reverse (own_entries table) ++ routes.
Proof.
  revert routes. induction table as [|p table IH]; intros routes; [done|].
  cbn [fold_left]. rewrite IH. unfold own_entries. rewrite filter_cons.
  destruct (own p) eqn:Hown.
  - rewrite decide_True by done. rewrite fmap_cons, reverse_cons.
    by rewrite <-app_assoc.
  - by rewrite decide_False by done.
Qed.

(** The first loop leaves the own entries in the reverse of the order in
    which they were enumerated. *)
Lemma collect_reverse (table : list property) :
  collect table = reverse (own_entries table).
Proof. unfold collect. by rewrite collect_from, app_nil_r. Qed.

Lemma callable_resolves c entry : callable c entry → resolves c entry.
Proof. unfold callable, resolves. by destruct (member c entry.2). Qed.

Lemma register_step c route methodName routes router :
  callable c (route, methodName) →
  register (Some c) ((route, methodName) :: routes) router
  = register (Some c) routes (router ++ [bind_entry c (route, methodName)]).
Proof.
  intros Hcallable. pose proof (callable_resolves _ _ Hcallable) as Hresolves.
  unfold callable, resolves in *. simpl in *. cbn [register].
  unfold bind. by rewrite Hresolves, Hcallable.
Qed.

Lemma register_all c routes router :
  Forall (callable c) routes →
  register (Some c) routes router = (router ++ (bind_entry c <$> routes), None).
Proof.
  intros Hall. revert router.
  induction Hall as [|[route methodName] routes Hhead _ IH]; intros router.
  - by rewrite app_nil_r.
  - rewrite register_step by done. rewrite IH, <-app_assoc. done.
Qed.

Lemma register_stop c found route methodName rest router :
  Forall (callable c) found →
  ¬ callable c (route, methodName) →
  register (Some c) (found ++ (route, methodName) :: rest) router
  = (router ++ (bind_entry c <$> found), Some (thrown_at c (route, methodName))).
Proof.
  intros Hfound Hfails. revert router.
  induction Hfound as [|[r m] found Hhead _ IH]; intros router.
  - cbn [app register fmap list_fmap]. rewrite app_nil_r.
    unfold callable in Hfails. simpl in Hfails. apply not_true_is_false in Hfails.
    unfold thrown_at, bind. cbn [snd]. rewrite Hfails.
    by destruct (truthy (member c methodName)).
  - cbn [app]. rewrite register_step by done. rewrite IH, <-app_assoc. done.
Qed.

Lemma all_or_failing c (entries : list (string * string)) :
  Forall (callable c) entries ∨ Exists (λ e, ¬ callable c e) entries.
Proof.
  destruct (decide (Exists (λ e, ¬ callable c e) entries)) as [Hex|Hall]; [by right|].
  left. apply Forall_forall. intros e He.
  destruct (decide (callable c e)) as [|Hno]; [done|].
  exfalso. apply Hall, Exists_exists. by exists e.
Qed.

(** A list with a failing entry splits at its first failing entry. *)
Lemma first_failing c (entries : list (string * string)) :
  Exists (λ e, ¬ callable c e) entries →
  ∃ found e rest,
    entries = found ++ e :: rest ∧ Forall (callable c) found ∧ ¬ callable c e.
Proof.
  induction entries as [|x l IH]; intros Hex.
  - by apply Exists_nil in Hex.
  - destruct (decide (callable c x)) as [Hx|Hx].
    + apply Exists_cons in Hex as [Hno|Hex]; [done|].
      destruct (IH Hex) as (found & e & rest & -> & Hfound & He).
      exists (x :: found), e, rest. split_and!; [done| |done].
      by apply Forall_cons.
    + by exists [], x, l.
Qed.

(** What the second loop leaves behind, in both of its outcomes. *)
Lemma register_shape c routes router :
  (Forall (callable c) routes
   ∧ register (Some c) routes router = (router ++ (bind_entry c <$> routes), None))
  ∨ (∃ found e rest,
       routes = found ++ e :: rest
       ∧ Forall (callable c) found
       ∧ ¬ callable c e
       ∧ register (Some c) routes router
         = (router ++ (bind_entry c <$> found), Some (thrown_at c e))).
Proof.
  destruct (all_or_failing c routes) as [Hall|Hex].
  - left. split; [done|]. by apply register_all.
  - right. destruct (first_failing c routes Hex)
      as (found & [route methodName] & rest & -> & Hfound & He).
    exists found, (route, methodName), rest. split_and!; [done|done|done|].
    by apply register_stop.
Qed.

(** *** The order of the enumeration *)

Lemma insert_index_perm entry sorted : insert_index entry sorted ≡ₚ entry :: sorted.
Proof.
  induction sorted as [|e rest IH]; [done|]. cbn [insert_index].
  destruct (index_of entry <? index_of e)%N; [done|].
  rewrite IH. apply Permutation_swap.
Qed.

Lemma ascending_perm entries : ascending entries ≡ₚ entries.
Proof.
  induction entries as [|e entries IH]; [done|].
  cbn [ascending foldr]. fold (ascending entries).
  by rewrite insert_index_perm, IH.
Qed.

Lemma insert_index_sorted entry sorted :
  StronglySorted (λ a b, (index_of a ≤ index_of b)%N) sorted →
  StronglySorted (λ a b, (index_of a ≤ index_of b)%N) (insert_index entry sorted).
Proof.
  induction sorted as [|e rest IH]; intros Hsorted.
  - repeat constructor.
  - cbn [insert_index]. destruct (index_of entry <? index_of e)%N eqn:Hlt.
    + apply N.ltb_lt in Hlt. apply StronglySorted_cons. split; [|done].
      apply StronglySorted_cons in Hsorted as [Hhead _].
      apply Forall_cons. split; [lia|].
      eapply Forall_impl; [exact Hhead|]. simpl. lia.
    + apply N.ltb_ge in Hlt. apply StronglySorted_cons in Hsorted as [Hhead Hrest].
      apply StronglySorted_cons. split; [|by apply IH].
      rewrite (insert_index_perm entry rest). by apply Forall_cons.
Qed.

Lemma ascending_sorted entries :
  StronglySorted (λ a b, (index_of a ≤ index_of b)%N) (ascending entries).
Proof.
  induction entries as [|e entries IH]; [constructor|].
  cbn [ascending foldr]. by apply insert_index_sorted.
Qed.

Lemma own_order_perm (o : object) : own_order o ≡ₚ own_props o.
Proof.
  unfold own_order. rewrite ascending_perm.
  assert (filter (λ e, array_index e.1 = None) (own_props o)
          = filter (λ e, ¬ is_Some (array_index e.1)) (own_props o)) as ->.
  { apply list_filter_iff. intros e. by rewrite eq_None_not_Some. }
  apply filter_app_complement.
Qed.

Lemma own_order_plain (o : object) :
  Forall (λ e, array_index e.1 = None) (own_props o) → own_order o = own_props o.
Proof.
  intros Hplain. unfold own_order.
  assert (filter (λ e, is_Some (array_index e.1)) (own_props o) = []) as ->.
  { apply elem_of_nil_inv. intros e He. apply list_elem_of_filter in He as [Hsome He].
    rewrite Forall_forall in Hplain. rewrite (Hplain e He) in Hsome.
    by apply is_Some_None in Hsome. }
  simpl. induction Hplain as [|e l He _ IH]; [done|].
  by rewrite filter_cons_True, IH.
Qed.

Lemma own_entries_for_in (o : object) : own_entries (for_in o) = own_order o.
Proof.
  unfold own_entries, for_in. rewrite filter_app.
  assert (∀ l : list (string * string),
            filter (λ p, own p = true) ((λ e, mkProperty e.1 e.2 true) <$> l)
            = (λ e, mkProperty e.1 e.2 true) <$> l) as ->.
  { induction l as [|e l IH]; [done|]. rewrite fmap_cons, filter_cons_True by done.
    by rewrite IH. }
  assert (∀ l : list (string * string),
            filter (λ p, own p = true) ((λ e, mkProperty e.1 e.2 false) <$> l) = [])
    as ->.
  { induction l as [|e l IH]; [done|]. by rewrite fmap_cons, filter_cons_False. }
  rewrite app_nil_r, <-list_fmap_compose.
  rewrite <-(list_fmap_id (own_order o)) at 2. apply list_fmap_ext.
  by intros i [route methodName] _.
Qed.

(** A list with a failing entry splits at its last failing entry. *)
Lemma last_failing c (entries : list (string * string)) :
  Exists (λ e, ¬ callable c e) entries →
  ∃ before e after,
    entries = before ++ e :: after ∧ ¬ callable c e ∧ Forall (callable c) after.
Proof.
  induction entries as [|x entries IH]; intros Hex.
  - by apply Exists_nil in Hex.
  - destruct (all_or_failing c entries) as [Hnone|Hlater].
    + apply Exists_cons in Hex as [Hx|Hlater].
      * by exists [], x, entries.
      * exfalso. apply Exists_exists in Hlater as (e & He & Hfails).
        rewrite Forall_forall in Hnone. by apply Hfails, Hnone.
    + destruct (IH Hlater) as (before & e & after & -> & He & Hafter).
      by exists (x :: before), e, after.
Qed.







(** The example of the specification: with [showB] missing, the entry
    declared last, nothing has been registered. *)
Lemma last_route_missing_registers_nothing :
  constructor
    (example_router (mkController 1 (method_table [("showA", VFun 10)]))) None
  = (example_router (mkController 1 (method_table [("showA", VFun 10)])),
     Some (NoMethodError "showB")).
Proof. reflexivity. Qed.

(** A member that is there but is not a function: [_.bind] throws, after
    the route declared after it has been registered. *)
Lemma string_member_throws_TypeError :
  constructor (example_router sloppy_controller) None
  = (mkRouter (Some example_routes) (Some sloppy_controller)
       [("b", "showB", Bound (VFun 11) 1)],
     Some TypeError).
Proof. reflexivity. Qed.

End AppRouterFacts.

(** ** Views *)

Module ViewFacts.

Import View BindToFacts UnbindAllFacts.

Lemma extend_union {V} (target src : gmap string V) :
  Underscore.extend target (Some src) = src ∪ target.
Proof.
  unfold Underscore.extend.
  apply (map_fold_weak_ind (λ r m, r = m ∪ target)).
  - by rewrite (left_id_L ∅ (∪)).
  - intros prop v m r _ ->. by rewrite insert_union_l.
Qed.

Lemma mixinTemplateHelpers_union (v : View) (target : option (gmap string data)) :
  mixinTemplateHelpers v target = resolved_helpers v ∪ default ∅ target.
Proof.
  unfold mixinTemplateHelpers, resolved_helpers.
  destruct (templateHelpers v) as [c|]; simpl.
  - apply extend_union.
  - by rewrite (left_id_L ∅ (∪)).
Qed.

(** C7: [serializeData] starts from the model's [toJSON] when there is a
    model, whether or not there is a collection; from [{items: ...}]
    around the collection's [toJSON] when there is a collection only; from
    the empty object when there is neither. The resolved template helpers
    (a function being called with the view as [this]) are copied over it,
    a helper replacing the property of the same name. *)
Theorem serializeData_precedence (v : View) :
  (∀ m, model v = Some m →
     serializeData v = resolved_helpers v ∪ default ∅ (model_toJSON m))
  ∧ (∀ c, model v = None → collection v = Some c →
       serializeData v = resolved_helpers v ∪ {[ "items" := collection_toJSON c ]})
  ∧ (model v = None → collection v = None → serializeData v = resolved_helpers v)
  ∧ (∀ f, templateHelpers v = Some (Producer f) →
       resolved_helpers v = f (VObj (self (holder v))))
  ∧ serializeData v = resolved_helpers v ∪ spec_base_data v
  ∧ (∀ key, serializeData v !! key
            = match resolved_helpers v !! key with
              | Some x => Some x
              | None => spec_base_data v !! key
              end).
Proof.
  assert (serializeData v = resolved_helpers v ∪ spec_base_data v) as Hunion.
  { unfold serializeData, spec_base_data. rewrite mixinTemplateHelpers_union.
    by destruct (model v), (collection v). }
  rewrite Hunion. unfold spec_base_data. split_and!.
  - by intros m ->.
  - by intros c -> ->.
  - intros -> ->. by rewrite (right_id_L ∅ (∪)).
  - intros f Hf. unfold resolved_helpers. by rewrite Hf.
  - done.
  - intros key. rewrite lookup_union. by destruct (resolved_helpers v !! key), (_ !! key).
Qed.

Lemma serializeData_precedence_witness :
  serializeData sample_view = {[ "a" := DNum 2; "fmt" := DFun 7 ]}
  ∧ serializeData list_view = {[ "items" := DArr [DObj [("x", DNum 1)]] ]}
  ∧ resolved_helpers sample_view = {[ "a" := DNum 2; "fmt" := DFun 7 ]}.
Proof.
  destruct (serializeData_precedence sample_view) as (Hmodel & _ & _ & Hproducer & _).
  destruct (serializeData_precedence list_view) as (_ & Hcollection & _).
  split_and!.
  - rewrite (Hmodel (mkModel (Some {[ "a" := DNum 1 ]}))) by reflexivity.
    vm_compute. reflexivity.
  - rewrite (Hcollection (mkCollection (DArr [DObj [("x", DNum 1)]])))
      by reflexivity.
    unfold resolved_helpers, list_view. simpl. by rewrite (left_id_L ∅ (∪)).
  - rewrite (Hproducer (λ _, {[ "a" := DNum 2; "fmt" := DFun 7 ]})) by reflexivity.
    reflexivity.
Defined.

Lemma configureTriggers_fmap (v : View) (c : configurable (gmap string string)) :
  triggers v = Some c →
  configureTriggers v = Some (Forward (self (holder v)) <$> resolve c (this_of v)).
Proof.
  intros Hc. unfold configureTriggers. rewrite Hc. f_equal.
  apply (map_fold_weak_ind (λ r m, r = Forward (self (holder v)) <$> m)).
  - by rewrite fmap_empty.
  - intros key value m r _ ->. by rewrite fmap_insert.
Qed.

(** C8: [configureTriggers] returns [undefined] exactly when the view has
    no [triggers]; otherwise it returns a map with one handler for each
    entry of the resolved triggers (a function being called with the view
    as [this]), which is empty only when the resolved triggers are empty.
    The handler of an entry calls [preventDefault] and [stopPropagation]
    on the event object when the object has them, in that order, and then
    triggers the entry's event name on the view. *)
Theorem configureTriggers_handlers (v : View) :
  (configureTriggers v = None ↔ triggers v = None)
  ∧ (∀ f, triggers v = Some (Producer f) →
       configureTriggers v
       = Some (Forward (self (holder v)) <$> f (VObj (self (holder v)))))
  ∧ (∀ t, triggers v = Some (Static t) →
       configureTriggers v = Some (Forward (self (holder v)) <$> t))
  ∧ (configureTriggers v = Some ∅
     ↔ ∃ c, triggers v = Some c ∧ resolve c (this_of v) = ∅)
  ∧ (∀ c key, triggers v = Some c →
       ∃ handlers, configureTriggers v = Some handlers
         ∧ handlers !! key
           = Forward (self (holder v)) <$> resolve c (this_of v) !! key)
  ∧ (∀ that value pd sp,
       forward that value (Some (mkDomEvent pd sp))
       = (if pd then [PreventDefault] else [])
         ++ (if sp then [StopPropagation] else [])
         ++ [TriggerOn that value])
  ∧ (∀ that value, forward that value None = [TriggerOn that value]).
Proof.
  split_and!.
  - unfold configureTriggers. by destruct (triggers v).
  - intros f Hf. by rewrite (configureTriggers_fmap _ _ Hf).
  - intros t Ht. by rewrite (configureTriggers_fmap _ _ Ht).
  - split.
    + destruct (triggers v) as [c|] eqn:Hc.
      * rewrite (configureTriggers_fmap _ _ Hc). intros [= Hempty].
        exists c. split; [done|]. by apply fmap_empty_inv in Hempty.
      * unfold configureTriggers. by rewrite Hc.
    + intros (c & Hc & Hempty).
      by rewrite (configureTriggers_fmap _ _ Hc), Hempty, fmap_empty.
  - intros c key Hc. eexists. split; [by apply configureTriggers_fmap|].
    by rewrite lookup_fmap.
  - done.
  - done.
Qed.

Lemma configureTriggers_handlers_witness :
  configureTriggers sample_view = Some {[ "click .foo" := Forward 0 "do:foo" ]}
  ∧ configureTriggers list_view = None.
Proof.
  destruct (configureTriggers_handlers sample_view) as (_ & _ & Hstatic & _).
  destruct (configureTriggers_handlers list_view) as (Hnone & _).
  split.
  - rewrite (Hstatic {[ "click .foo" := "do:foo" ]}) by reflexivity.
    vm_compute. reflexivity.
  - apply Hnone. reflexivity.
Defined.

Lemma delegateEvents_union (v : View) events_arg :
  delegateEvents v events_arg
  = default ∅ (configureTriggers v) ∪ default ∅ (resolved_events v events_arg).
Proof.
  unfold delegateEvents, resolved_events.
  assert (∀ (target : gmap string handler) source,
            Underscore.extend target source = default ∅ source ∪ target) as Hextend.
  { intros target [src|]; simpl; [apply extend_union|by rewrite (left_id_L ∅ (∪))]. }
  rewrite !Hextend, (right_id_L ∅ (∪)).
  by destruct events_arg as [c|], (events v) as [c'|].
Qed.

(** C9: when the events hash and the map of [configureTriggers] both
    have an entry for a descriptor, the map handed to
    [Backbone.View.prototype.delegateEvents] holds the handler built from
    the trigger under that descriptor. *)
Theorem trigger_handler_wins (v : View) events_arg
    (declared handlers : gmap string handler) (key : string) (h1 h2 : handler) :
  resolved_events v events_arg = Some declared →
  configureTriggers v = Some handlers →
  declared !! key = Some h1 →
  handlers !! key = Some h2 →
  delegateEvents v events_arg !! key = Some h2
  ∧ (∃ value, h2 = Forward (self (holder v)) value)
  ∧ delegateEvents v events_arg = handlers ∪ declared.
Proof.
  intros Hdeclared Hhandlers Hh1 Hh2.
  rewrite delegateEvents_union, Hdeclared, Hhandlers. simpl. split_and!.
  - by apply lookup_union_Some_l.
  - destruct (triggers v) as [c|] eqn:Hc.
    + rewrite (configureTriggers_fmap _ _ Hc) in Hhandlers.
      injection Hhandlers as <-. rewrite lookup_fmap in Hh2.
      destruct (resolve c (this_of v) !! key) as [value|]; [|done].
      injection Hh2 as <-. by exists value.
    + unfold configureTriggers in Hhandlers. by rewrite Hc in Hhandlers.
  - done.
Qed.

Lemma trigger_handler_wins_witness :
  delegateEvents sample_view None !! "click .foo" = Some (Forward 0 "do:foo")
  ∧ delegateEvents sample_view None !! "click .bar" = Some (Declared (VStr "onBar")).
Proof.
  split; [|vm_compute; reflexivity].
  eapply (trigger_handler_wins sample_view None
            {[ "click .foo" := Declared (VStr "onFoo");
               "click .bar" := Declared (VStr "onBar") ]}
            {[ "click .foo" := Forward 0 "do:foo" ]}
            "click .foo" (Declared (VStr "onFoo")) (Forward 0 "do:foo")).
  - reflexivity.
  - vm_compute. reflexivity.
  - vm_compute. reflexivity.
  - vm_compute. reflexivity.
Defined.

Lemma filter_snapshot_out (l : list Binding) :
  filter (λ bind, ident bind ∉ ident <$> l) l = [].
Proof.
  apply elem_of_nil_inv. intros b Hb. apply list_elem_of_filter in Hb as [Hout Hin].
  apply Hout, list_elem_of_fmap. by exists b.
Qed.

Lemma close_silent (v : View) :
  holder (close silent v)
  = mkHolder (self (holder v))
      (match registry (holder v) with
       | [] => bindings (holder v)
       | _ => Some []
       end)
      (fresh (holder v)) (trace (holder v) ++ spec_close_steps v)
  ∧ attached (close silent v) = false.
Proof.
  destruct v as [h att m c th tr ev bc oc osc].
  destruct bc, oc.
  all: cbv [close hook remove with_holder holder attached beforeClose onClose
            model collection templateHelpers triggers events onShowCalled].
  all: split; [|reflexivity].
  all: rewrite unbindAll_unfold, each_silent.
  all: unfold spec_close_steps, emit;
    cbn [holder attached beforeClose onClose self fresh trace bindings registry default];
    fold (registry h); rewrite ?filter_snapshot_out, <-?app_assoc; reflexivity.
Qed.

Lemma no_trigger_among_offs (l : list Binding) (name : string) :
  filter (λ e, e = Trigger name) (off_of <$> l) = [].
Proof.
  induction l as [|b l IH]; [done|].
  rewrite fmap_cons, filter_cons_False; [done|]. by unfold off_of.
Qed.

(** C4 (amended): [close] runs [beforeClose] if present, detaches the
    view, runs [onClose] if present, emits "close", unbinds every owned
    subscription and then the view's own listeners, in this order. After
    it the registry is empty and the view detached, "close" has been
    emitted once, and [onClose] found the view detached with the registry
    as it was when [close] was called, hence non-empty whenever it was
    non-empty then. *)
Theorem close_sequence (v : View) :
  trace (holder (close silent v)) = trace (holder v) ++ spec_close_steps v
  ∧ registry (holder (close silent v)) = []
  ∧ (∀ react, only_removes react → registry (holder (close react v)) = [])
  ∧ attached (close silent v) = false
  ∧ length (filter (λ e, e = Trigger "close") (spec_close_steps v)) = 1
  ∧ (onClose v = true →
     Hook "onClose" false (bindings (holder v)) ∈ spec_close_steps v
     ∧ (∀ att reg, Hook "onClose" att reg ∈ spec_close_steps v →
          att = false ∧ reg = bindings (holder v)
          ∧ (registry (holder v) ≠ [] → default [] reg ≠ [])))
  ∧ (onClose v = false → ∀ att reg, Hook "onClose" att reg ∉ spec_close_steps v).
Proof.
  destruct (close_silent v) as [Hholder Hattached]. rewrite Hholder.
  cbn [trace registry bindings]. split_and!.
  - done.
  - by destruct (registry (holder v)) eqn:Hreg.
  - intros react Hreact. destruct v as [h att m c th tr ev bc oc osc].
    destruct bc, oc.
    all: cbv [close hook remove with_holder holder attached beforeClose onClose
              model collection templateHelpers triggers events onShowCalled].
    all: change (registry (emit Unbind ?h)) with (registry h).
    all: by apply unbindAll_empty.
  - done.
  - unfold spec_close_steps. rewrite !filter_app, no_trigger_among_offs.
    by destruct (beforeClose v), (onClose v).
  - intros Hon. unfold spec_close_steps. rewrite Hon. split.
    + rewrite !elem_of_app. right. right. left. by apply list_elem_of_singleton.
    + intros att reg. rewrite !elem_of_app, !list_elem_of_singleton.
      intros [Hin|[Hin|[Hin|[Hin|[Hin|Hin]]]]]; try done.
      * destruct (beforeClose v); [|by apply elem_of_nil in Hin].
        by apply list_elem_of_singleton in Hin.
      * by injection Hin as -> ->.
      * apply list_elem_of_fmap in Hin as (b & Hb & _). by unfold off_of in Hb.
  - intros Hoff att reg. unfold spec_close_steps. rewrite Hoff.
    rewrite !elem_of_app, !list_elem_of_singleton.
    intros [Hin|[Hin|[Hin|[Hin|[Hin|Hin]]]]]; try done.
    + destruct (beforeClose v); [|by apply elem_of_nil in Hin].
      by apply list_elem_of_singleton in Hin.
    + by apply elem_of_nil in Hin.
    + apply list_elem_of_fmap in Hin as (b & Hb & _). by unfold off_of in Hb.
Qed.

Lemma close_sequence_witness :
  trace (holder (close silent sample_view))
  = [On 0 "show" (VFun 8) (VObj 0);
     Hook "beforeClose" true (Some [mkBinding 0 0 "show" (VFun 8) (VObj 0)]);
     Remove;
     Hook "onClose" false (Some [mkBinding 0 0 "show" (VFun 8) (VObj 0)]);
     Trigger "close";
     Off 0 "show" (VFun 8) (VObj 0);
     Unbind]
  ∧ Hook "onClose" false (bindings (holder sample_view)) ∈ spec_close_steps sample_view
  ∧ registry (holder (close clearing sample_view)) = []
  ∧ Hook "onClose" false None ∉ spec_close_steps list_view.
Proof.
  destruct (close_sequence sample_view) as (Htrace & _ & Hreact & _ & _ & Hon & _).
  destruct (close_sequence list_view) as (_ & _ & _ & _ & _ & _ & Hoff).
  split_and!.
  - rewrite Htrace. reflexivity.
  - apply Hon. reflexivity.
  - apply Hreact, clearing_only_removes.
  - apply Hoff. reflexivity.
Defined.

(** C4 as stated fails: on a view whose [unbindAll] has been called
    before, [onClose] finds the registry empty. *)
Lemma onClose_finds_empty_registry :
  onClose emptied_view = true
  ∧ trace (holder (close silent emptied_view))
    = [On 0 "show" (VFun 8) (VObj 0);
       Off 0 "show" (VFun 8) (VObj 0);
       Hook "beforeClose" true (Some []);
       Remove;
       Hook "onClose" false (Some []);
       Trigger "close";
       Unbind]
  ∧ ∃ reg, Hook "onClose" false reg ∈ trace (holder (close silent emptied_view))
           ∧ default [] reg = [].
Proof.
  split_and!; [reflexivity|reflexivity|].
  exists (Some []). split; [|reflexivity].
  change (trace (holder (close silent emptied_view)))
    with [On 0 "show" (VFun 8) (VObj 0); Off 0 "show" (VFun 8) (VObj 0);
          Hook "beforeClose" true (Some []); Remove; Hook "onClose" false (Some []);
          Trigger "close"; Unbind].
  do 4 apply list_elem_of_further. apply list_elem_of_here.
Qed.

End ViewFacts.

(** ** Further properties of the registry *)

Module HolderFacts.

Import BindToFacts Emitter EmitterFacts UnbindAllFacts.

Lemma filter_everything {A} (P : A → Prop) `{∀ x, Decision (P x)} (l : list A) :
  Forall P l → filter P l = l.
Proof.
  induction 1 as [|x l Hx _ IH]; [done|]. by rewrite filter_cons_True, IH.
Qed.

Lemma registry_each_silent (l : list Binding) (this : Holder) :
  registry (Underscore.each l (λ binding that, unbindFrom silent binding that) this)
  = filter (λ bind, ident bind ∉ ident <$> l) (registry this).
Proof.
  unfold Underscore.each. rewrite each_silent. destruct l as [|b l].
  - cbn [registry bindings]. symmetry. apply filter_everything.
    apply Forall_forall. intros x _. apply not_elem_of_nil.
  - done.
Qed.

(** X5: unbinding a batch of records one after the other takes exactly
    the records of those identities out of the registry; the order of the
    batch and repetitions in it make no difference to the registry. *)
Theorem unbinding_order_irrelevant (l l' : list Binding) (this : Holder) :
  (∀ i, i ∈ ident <$> l ↔ i ∈ ident <$> l') →
  registry (Underscore.each l (λ binding that, unbindFrom silent binding that) this)
  = registry (Underscore.each l' (λ binding that, unbindFrom silent binding that) this)
  ∧ ∀ bind,
      bind ∈ registry (Underscore.each l (λ binding that, unbindFrom silent binding that) this)
      ↔ bind ∈ registry this ∧ ident bind ∉ ident <$> l.
Proof.
  intros Hsame. rewrite !registry_each_silent. split.
  - apply list_filter_iff. intros x. by rewrite Hsame.
  - intros bind. rewrite list_elem_of_filter. tauto.
Qed.

Lemma unbinding_order_irrelevant_witness :
  let first := mkBinding 0 1 "change" (VFun 2) (VObj 0) in
  let second := mkBinding 1 1 "change" (VFun 2) (VObj 0) in
  registry (unbindFrom silent second (unbindFrom silent first twice))
  = registry (unbindFrom silent first (unbindFrom silent first
               (unbindFrom silent second twice))).
Proof.
  intros first second.
  apply (unbinding_order_irrelevant [first; second] [second; first; first] twice).
  intros i. simpl. rewrite !elem_of_cons, !elem_of_nil. tauto.
Defined.

(** X4: on a holder whose identities come from its allocator, binding
    and then unbinding the returned record gives back the registry as it
    was; the trace gains the [on] call and the matching [off] call, the
    identity used is not handed out again, and an emitter that drops one
    registration per [off] has the listeners it had before. *)
Theorem bind_unbind_round_trip o name cb ctx (this : Holder) :
  wf this →
  let binding := (bindTo silent o name cb ctx this).1 in
  let after := unbindFrom silent binding (bindTo silent o name cb ctx this).2 in
  registry after = registry this
  ∧ trace after
    = trace this ++ [On o name cb (JS.or ctx (VObj (self this)));
                     Off o name cb (JS.or ctx (VObj (self this)))]
  ∧ fresh after = S (fresh this)
  ∧ (∀ E (L : Listeners E), OneAtATime E →
     ∀ (s : E) k, active (replay (trace after) s) k = active (replay (trace this) s) k).
Proof.
  intros [_ Hlt]. cbn zeta. rewrite bindTo_silent. cbn zeta. cbn [fst snd].
  rewrite unbindFrom_silent. cbn [registry bindings default trace fresh ident].
  unfold id. fold (registry this). split_and!.
  - rewrite filter_app, filter_cons_False, filter_nil, app_nil_r
      by (simpl; intros Hne; by apply Hne).
    apply filter_everything. eapply Forall_impl; [exact Hlt|]. simpl. lia.
  - by rewrite <-app_assoc.
  - done.
  - intros E L HL s k. rewrite <-app_assoc, !replay_app.
    unfold replay at 1 2. cbn [fold_left feed on_of off_of obj eventName callback context].
    rewrite active_unsubscribe, active_subscribe. by destruct (decide _).
Qed.

Lemma bind_unbind_round_trip_witness :
  registry (unbindFrom silent (bindTo silent 4 "reset" (VFun 5) VNull twice).1
              (bindTo silent 4 "reset" (VFun 5) VNull twice).2)
  = registry twice.
Proof.
  apply (bind_unbind_round_trip 4 "reset" (VFun 5) VNull twice). split.
  - vm_compute. apply NoDup_cons. split; [|apply NoDup_singleton].
    rewrite list_elem_of_singleton. lia.
  - vm_compute. repeat constructor.
Defined.

(** X6: once [unbindAll] has run, running it again changes nothing, as
    long as the code the emitters run from inside [off] only takes records
    out; [unbindAll] hands out no identity, and the record bound next is
    the only one in the registry and has an identity never used before. *)
Theorem unbindAll_idempotent react (this : Holder) :
  only_removes react →
  unbindAll react (unbindAll react this) = unbindAll react this
  ∧ fresh (unbindAll silent this) = fresh this
  ∧ (∀ o name cb ctx,
       registry (bindTo silent o name cb ctx (unbindAll silent this)).2
       = [mkBinding (fresh this) o name cb (JS.or ctx (VObj (self this)))]).
Proof.
  intros Hreact. split_and!.
  - rewrite (unbindAll_unfold react (unbindAll react this)).
    by rewrite unbindAll_empty.
  - by rewrite unbindAll_unfold, each_silent.
  - intros o name cb ctx. rewrite bindTo_silent. cbn zeta.
    cbn [snd registry bindings default]. unfold id.
    rewrite (unbindAll_empty silent this silent_only_removes).
    by rewrite unbindAll_unfold, each_silent.
Qed.

Lemma unbindAll_idempotent_witness :
  unbindAll clearing (unbindAll clearing twice) = unbindAll clearing twice.
Proof. apply (unbindAll_idempotent clearing twice clearing_only_removes). Defined.

Lemma sorted_filter (P : Binding → Prop) `{∀ x, Decision (P x)} (l : list Binding) :
  StronglySorted lt (ident <$> l) → StronglySorted lt (ident <$> filter P l).
Proof.
  induction l as [|b l IH]; [done|]. rewrite fmap_cons, StronglySorted_cons.
  intros [Hhead Htail]. rewrite filter_cons. destruct (decide (P b)); [|by apply IH].
  rewrite fmap_cons, StronglySorted_cons. split; [|by apply IH].
  rewrite Forall_forall in Hhead. apply Forall_forall. intros i Hi.
  apply Hhead. apply list_elem_of_fmap in Hi as (x & -> & Hx).
  apply list_elem_of_fmap. exists x. split; [done|].
  by apply list_elem_of_filter in Hx as [_ Hx].
Qed.

Lemma in_order_bindTo o name cb ctx (this : Holder) :
  in_order this → in_order (bindTo silent o name cb ctx this).2.
Proof.
  intros [Hsorted Hlt]. rewrite bindTo_silent. unfold in_order. cbn zeta.
  cbn [snd registry bindings default fresh]. unfold id. fold (registry this). split.
  - rewrite fmap_app. apply StronglySorted_app. split_and!.
    + intros i j Hi Hj. apply list_elem_of_singleton in Hj as ->.
      apply list_elem_of_fmap in Hi as (b & -> & Hb).
      rewrite Forall_forall in Hlt. by apply Hlt.
    + done.
    + simpl. repeat constructor.
  - apply Forall_app. split.
    + eapply Forall_impl; [exact Hlt|]. simpl. lia.
    + apply Forall_singleton. simpl. lia.
Qed.

Lemma in_order_each (l : list Binding) (this : Holder) :
  in_order this →
  in_order (Underscore.each l (λ binding that, unbindFrom silent binding that) this).
Proof.
  intros [Hsorted Hlt]. split.
  - rewrite registry_each_silent. by apply sorted_filter.
  - rewrite registry_each_silent. unfold Underscore.each. rewrite each_silent.
    cbn [fresh]. rewrite Forall_forall in Hlt. apply Forall_forall. intros b Hb.
    apply list_elem_of_filter in Hb as [_ Hb]. by apply Hlt.
Qed.

Lemma in_order_wf (this : Holder) : in_order this → wf this.
Proof.
  intros [Hsorted Hlt]. split; [|done].
  induction (ident <$> registry this) as [|i l IH]; [apply NoDup_nil_2|].
  apply StronglySorted_cons in Hsorted as [Hhead Htail].
  apply NoDup_cons. split; [|by apply IH].
  intros Hin. rewrite Forall_forall in Hhead. specialize (Hhead i Hin). lia.
Qed.

(** X3: [bindTo], [unbindFrom] and [unbindAll] keep the records of the
    registry in the order in which they were bound, with identities that
    are pairwise distinct and were all handed out by the allocator; this
    holds after every sequence of [bindTo]/[unbindFrom] calls, repeated
    and stale unbinds included. *)
Theorem registry_stays_in_order :
  (∀ o name cb ctx this, in_order this → in_order (bindTo silent o name cb ctx this).2)
  ∧ (∀ binding this, in_order this → in_order (unbindFrom silent binding this))
  ∧ (∀ this, in_order this → in_order (unbindAll silent this))
  ∧ (∀ this, in_order this → NoDup (ident <$> registry this))
  ∧ (∀ self cs, in_order (Script.holder (Script.run cs (Script.start self)))).
Proof.
  split_and!.
  - apply in_order_bindTo.
  - intros binding this. apply (in_order_each [binding]).
  - intros this. rewrite unbindAll_unfold. apply (in_order_each (registry this)).
  - intros this Hthis. by apply in_order_wf.
  - intros self cs.
    assert (in_order (Script.holder (Script.start self))) as Hstart.
    { split; simpl; constructor. }
    revert Hstart. generalize (Script.start self).
    induction cs as [|c cs IH]; intros s Hs; [done|].
    cbn [Script.run fold_left]. apply IH. destruct c as [o name cb ctx|i].
    + unfold Script.step. destruct (bindTo silent o name cb ctx (Script.holder s)) eqn:Hb.
      cbn [Script.holder]. change h with (b, h).2. rewrite <-Hb. by apply in_order_bindTo.
    + unfold Script.step. destruct (Script.handles s !! i) as [b|]; [|done].
      cbn [Script.holder]. by apply (in_order_each [b]).
Qed.

Lemma registry_stays_in_order_witness :
  NoDup (ident <$> registry (unbindAll silent (unbindFrom silent
           (mkBinding 0 1 "change" (VFun 2) (VObj 0)) twice))).
Proof.
  destruct registry_stays_in_order as (_ & Hunbind & Hall & Hnodup & _).
  apply Hnodup, Hall, Hunbind. split.
  - vm_compute. repeat constructor.
  - vm_compute. repeat constructor.
Defined.

End HolderFacts.

(** ** Every sequence of binds and unbinds *)

Module AnyScriptFacts.

Import Script BindToFacts Emitter EmitterFacts ScriptFacts UnbindAllFacts.

Lemma handle_entry self s l gone i b :
  linked self s l gone → handles s !! i = Some b →
  i ∈ (pending l).*1 → (i, key_of b) ∈ pending l.
Proof.
  intros [_ _ _ _ Hreg Hmem _ _ _] Hb Hin.
  apply list_elem_of_fmap in Hin as ([j kj] & Hj & Hin). simpl in Hj. subst j.
  rewrite <-Hreg in Hin. apply list_elem_of_fmap in Hin as (b' & Heq & Hin').
  injection Heq as Hib Hk. pose proof (Hmem _ Hin') as Hh.
  rewrite <-Hib, Hb in Hh. injection Hh as ->.
  rewrite <-Hreg. apply list_elem_of_fmap. exists b'. split; [by rewrite Hib|done].
Qed.

Lemma filter_no_index (i : nat) (l : list (nat * key)) :
  i ∉ l.*1 → filter (λ p, p.1 ≠ i) l = l.
Proof.
  induction l as [|[j kj] l IH]; [done|]. rewrite fmap_cons, not_elem_of_cons.
  intros [Hne Hl]. rewrite filter_cons_True by (simpl in *; congruence). by rewrite IH.
Qed.

Lemma unbind_unknown self s l gone i :
  linked self s l gone → ¬ i < calls l →
  step (UnbindOne i) s = s ∧ note self (UnbindOne i) l = l.
Proof.
  intros [_ _ Hlen _ _ _ _ Hbound _] Hi. split.
  - unfold step. rewrite lookup_ge_None_2; [done|lia].
  - unfold note. rewrite filter_no_index; [by destruct l|].
    intros Hin. apply list_elem_of_fmap in Hin as (p & -> & Hp).
    rewrite Forall_forall in Hbound. specialize (Hbound p Hp). simpl in Hbound. lia.
Qed.

Lemma linked_step self s l gone c :
  linked self s l gone → ∃ gone', linked self (step c s) (note self c l) gone'.
Proof.
  intros Hlinked. destruct c as [o name cb ctx|i].
  - exists gone. by apply linked_bind.
  - destruct (decide (i < calls l)) as [Hi|Hi].
    + destruct (linked_unbind _ _ _ _ i Hlinked Hi) as (b & _ & _ & _ & Hnext).
      by exists (i :: gone).
    + destruct (unbind_unknown _ _ _ _ i Hlinked Hi) as [-> ->]. by exists gone.
Qed.

Lemma run_linked_always self cs :
  ∀ s l gone, linked self s l gone →
    ∃ gone', linked self (run cs s) (fold_left (λ l c, note self c l) cs l) gone'.
Proof.
  induction cs as [|c cs IH]; intros s l gone Hlinked; [by exists gone|].
  cbn [run fold_left]. destruct (linked_step _ _ _ _ c Hlinked) as [gone' Hnext].
  by apply (IH _ _ gone').
Qed.

Lemma registry_is_pending (self : ref) (cs : list op) :
  (λ b, (ident b, key_of b)) <$> registry (holder (run cs (start self)))
  = pending (not_yet_unbound self cs).
Proof.
  destruct (run_linked_always self cs (start self) (mkLedger 0 []) [])
    as [gone Hlinked]; [apply linked_start|].
  apply (linked_registry _ _ _ _ Hlinked).
Qed.

(** X1: after every sequence of [bindTo]/[unbindFrom] calls, stale and
    repeated unbinds included, the registry holds, in the order of the
    calls, exactly the records returned by the [bindTo] calls whose record
    has not been passed to [unbindFrom] since: the bookkeeping of the
    registry itself never drifts. *)
Theorem registry_follows_ledger (self : ref) (cs : list op) :
  (λ b, (ident b, key_of b)) <$> registry (holder (run cs (start self)))
  = pending (not_yet_unbound self cs)
  ∧ (∀ b, b ∈ registry (holder (run cs (start self))) →
       handles (run cs (start self)) !! ident b = Some b)
  ∧ length (handles (run cs (start self))) = calls (not_yet_unbound self cs).
Proof.
  destruct (run_linked_always self cs (start self) (mkLedger 0 []) [])
    as [gone Hlinked]; [apply linked_start|].
  split_and!.
  - apply (linked_registry _ _ _ _ Hlinked).
  - apply (linked_members _ _ _ _ Hlinked).
  - apply (linked_length _ _ _ _ Hlinked).
Qed.

Lemma registry_follows_ledger_witness :
  handles (run careless (start 0)) !! 1
  = Some (mkBinding 1 1 "change" (VFun 2) (VObj 0)).
Proof.
  destruct (registry_follows_ledger 0 careless) as (_ & Hmembers & _).
  apply (Hmembers (mkBinding 1 1 "change" (VFun 2) (VObj 0))).
  change (mkBinding 1 1 "change" (VFun 2) (VObj 0)
          ∈ [mkBinding 1 1 "change" (VFun 2) (VObj 0);
             mkBinding 2 4 "reset" (VFun 5) (VObj 6)]).
  apply list_elem_of_here.
Defined.

Lemma bound_on_pending (k : key) (l : list Binding) :
  length (filter (λ p : nat * key, p.2 = k) ((λ b, (ident b, key_of b)) <$> l))
  = bound_on k l.
Proof.
  unfold bound_on. induction l as [|b l IH]; [done|].
  rewrite fmap_cons. destruct (decide (key_of b = k)) as [Hk|Hk].
  - rewrite !filter_cons_True by done. simpl. by rewrite IH.
  - by rewrite !filter_cons_False by done.
Qed.

Lemma run_bounded `{OneAtATime E} (self : ref) (cs : list op) :
  ∀ s l gone,
    linked self s l gone →
    (∀ k, active (replay (trace (holder s)) nobody) k ≤ pending_on l k) →
    ∀ k, active (replay (trace (holder (run cs s))) nobody) k
         ≤ pending_on (fold_left (λ l c, note self c l) cs l) k.
Proof.
  induction cs as [|c cs IH]; intros s l gone Hlinked Hcount; [done|].
  cbn [run fold_left]. destruct (linked_step _ _ _ _ c Hlinked) as [gone' Hnext].
  apply (IH _ _ gone' Hnext). intros k. specialize (Hcount k).
  destruct c as [o name cb ctx|i].
  - unfold step. rewrite bindTo_silent. cbn zeta.
    cbn [holder trace note pending]. rewrite replay_app.
    unfold replay at 1. cbn [fold_left feed on_of obj eventName callback context].
    rewrite active_subscribe. unfold pending_on in *. cbn [pending].
    rewrite filter_app, length_app, filter_cons, filter_nil. cbn [snd].
    rewrite (linked_self _ _ _ _ Hlinked).
    repeat case_decide; cbn [length]; (lia || congruence).
  - destruct (decide (i < calls l)) as [Hi|Hi].
    + destruct (linked_unbind _ _ _ _ i Hlinked Hi) as (b & Hb & _ & _ & _).
      unfold step. rewrite Hb, unbindFrom_silent.
      cbn [holder trace note pending]. rewrite replay_app.
      unfold replay at 1. cbn [fold_left feed off_of].
      rewrite active_unsubscribe. unfold pending_on in *. cbn [pending].
      destruct (decide (i ∈ (pending l).*1)) as [Hin|Hout].
      * rewrite (strike_count i (key_of b));
          [|apply (linked_NoDup _ _ _ _ Hlinked)|by eapply handle_entry].
        fold (key_of b). destruct (decide (key_of b = k)); lia.
      * rewrite filter_no_index by done. destruct (decide _); lia.
    + destruct (unbind_unknown _ _ _ _ i Hlinked Hi) as [-> ->]. done.
Qed.

(** X2: on an emitter whose [off] drops one registration per call, after
    every sequence of [bindTo]/[unbindFrom] calls, stale and repeated
    unbinds included, the listeners registered through the registry on a
    combination are never more than the records the registry holds for
    it, so that [unbindAll] always leaves none of them. *)
Theorem listeners_never_exceed_records :
  ∀ E (L : Listeners E), OneAtATime E →
  ∀ (self : ref) (cs : list op) (k : key),
    active (replay (trace (holder (run cs (start self)))) nobody) k
    ≤ bound_on k (registry (holder (run cs (start self))))
    ∧ active (replay (trace (unbindAll silent (holder (run cs (start self))))) nobody) k = 0.
Proof.
  intros E L HL self cs k.
  assert (active (replay (trace (holder (run cs (start self)))) nobody) k
          ≤ bound_on k (registry (holder (run cs (start self))))) as Hle.
  { rewrite <-bound_on_pending.
    rewrite (registry_is_pending self cs).
    apply (run_bounded self cs (start self) (mkLedger 0 []) []).
    - apply linked_start.
    - intros k'. simpl. rewrite active_nobody. lia. }
  split; [exact Hle|].
  rewrite unbindAll_unfold, each_silent. cbn [trace].
  rewrite replay_app, active_replay_offs. lia.
Qed.

Lemma listeners_never_exceed_records_witness :
  @active _ table
    (@replay _ table (trace (unbindAll silent (holder (run careless (start 0)))))
       (@nobody _ table))
    on_change
  = 0.
Proof.
  apply (listeners_never_exceed_records _ table table_one_at_a_time 0 careless on_change).
Defined.

End AnyScriptFacts.

(** ** Further properties of views *)

Module ViewLifecycleFacts.

Import View BindToFacts Emitter EmitterFacts UnbindAllFacts ViewFacts.

(** The record the constructor binds on a view. *)
Lemma constructor_silent (base : View) :
  holder (constructor silent base)
  = mkHolder (self (holder base))
      (Some (registry (holder base)
             ++ [mkBinding (fresh (holder base)) (self (holder base)) "show"
                   (onShowCalled base) (VObj (self (holder base)))]))
      (S (fresh (holder base)))
      (trace (holder base)
       ++ [On (self (holder base)) "show" (onShowCalled base) (VObj (self (holder base)))])
  ∧ constructor silent base
    = with_holder (λ _, holder (constructor silent base)) base.
Proof.
  unfold constructor, with_holder. cbn [holder]. rewrite bindTo_silent. done.
Qed.

Lemma bound_on_app (k : key) (l1 l2 : list Binding) :
  bound_on k (l1 ++ l2) = bound_on k l1 + bound_on k l2.
Proof. unfold bound_on. by rewrite filter_app, length_app. Qed.

Lemma bound_on_singleton (k : key) (b : Binding) :
  bound_on k [b] = if decide (key_of b = k) then 1 else 0.
Proof.
  unfold bound_on. rewrite filter_cons, filter_nil. by destruct (decide _).
Qed.

Lemma constructor_in_step `{OneAtATime E} (s : E) (base : View) :
  in_step s (holder base) → in_step s (holder (constructor silent base)).
Proof.
  intros Hstep k. destruct (constructor_silent base) as [Hholder _].
  rewrite Hholder. cbn [trace registry bindings default].
  unfold id. rewrite replay_app, bound_on_app, bound_on_singleton.
  unfold replay at 1. cbn [fold_left feed]. rewrite active_subscribe, (Hstep k).
  unfold key_of. cbn [obj eventName callback context].
  repeat case_decide; (lia || congruence).
Qed.

(** X7: the constructor leaves the records already in the registry in
    place and appends one record after them: event "show", bound on the
    view itself with the view as context and with the [onShowCalled] the
    view has at that moment; it registers that one listener and touches
    nothing else of the view. Identities stay distinct, and a listener
    table in step with the registry stays in step. *)
Theorem constructor_subscribes_show (base : View) :
  registry (holder (constructor silent base))
  = registry (holder base)
    ++ [mkBinding (fresh (holder base)) (self (holder base)) "show"
          (onShowCalled base) (VObj (self (holder base)))]
  ∧ trace (holder (constructor silent base))
    = trace (holder base)
      ++ [On (self (holder base)) "show" (onShowCalled base) (VObj (self (holder base)))]
  ∧ constructor silent base = with_holder (λ _, holder (constructor silent base)) base
  ∧ (wf (holder base) → wf (holder (constructor silent base)))
  ∧ (∀ E (L : Listeners E), OneAtATime E →
     ∀ s : E, in_step s (holder base) → in_step s (holder (constructor silent base))).
Proof.
  destruct (constructor_silent base) as [Hholder Hrest]. split_and!.
  - by rewrite Hholder.
  - by rewrite Hholder.
  - exact Hrest.
  - intros Hwf. unfold constructor, with_holder. cbn [holder]. by apply wf_bindTo.
  - intros E L HL s. apply constructor_in_step.
Qed.

Lemma constructor_subscribes_show_witness :
  wf (holder sample_view) ∧ @in_step _ table (@nobody _ table) (holder sample_view).
Proof.
  destruct (constructor_subscribes_show base_view) as (_ & _ & _ & Hwf & Hstep).
  split.
  - apply Hwf. split; simpl; constructor.
  - apply (Hstep _ table table_one_at_a_time). intros k. reflexivity.
Defined.

Lemma hook_onClose_in_steps (v : View) att reg :
  Hook "onClose" att reg ∈ spec_close_steps v →
  onClose v = true ∧ att = false ∧ reg = bindings (holder v).
Proof.
  unfold spec_close_steps. rewrite !elem_of_app, !list_elem_of_singleton.
  intros [Hin|[Hin|[Hin|[Hin|[Hin|Hin]]]]]; try done.
  - destruct (beforeClose v); [|by apply elem_of_nil in Hin].
    by apply list_elem_of_singleton in Hin.
  - destruct (onClose v); [|by apply elem_of_nil in Hin].
    apply list_elem_of_singleton in Hin. by injection Hin as -> ->.
  - apply list_elem_of_fmap in Hin as (b & Hb & _). by unfold off_of in Hb.
Qed.

(** X8: when a view is closed as its constructor left it, whatever the
    constructor started from, [onClose] is entered with the view detached
    and a registry that still holds the "show" subscription, and the calls
    made by [close] include the [off] that matches the [on] of the
    constructor. *)
Theorem fresh_view_closes_with_show (base : View) :
  let v := constructor silent base in
  let show := mkBinding (fresh (holder base)) (self (holder base)) "show"
                (onShowCalled base) (VObj (self (holder base))) in
  (∀ att reg,
     Hook "onClose" att reg
       ∈ drop (length (trace (holder v))) (trace (holder (close silent v))) →
     att = false ∧ show ∈ default [] reg)
  ∧ Off (self (holder base)) "show" (onShowCalled base) (VObj (self (holder base)))
      ∈ drop (length (trace (holder v))) (trace (holder (close silent v)))
  ∧ registry (holder (close silent v)) = [].
Proof.
  intros v show. destruct (close_silent v) as [Hclose _]. rewrite Hclose.
  cbn [trace registry bindings]. rewrite drop_app_length.
  destruct (constructor_silent base) as [Hholder _].
  assert (registry (holder v) = registry (holder base) ++ [show]) as Hreg
      by (unfold v; by rewrite Hholder).
  split_and!.
  - intros att reg Hin. apply hook_onClose_in_steps in Hin as (_ & -> & ->).
    split; [done|]. change (default [] (bindings (holder v))) with (registry (holder v)).
    rewrite Hreg, elem_of_app, list_elem_of_singleton. by right.
  - unfold spec_close_steps. rewrite !elem_of_app. do 4 right. left.
    apply list_elem_of_fmap. exists show. split; [done|].
    rewrite Hreg, elem_of_app, list_elem_of_singleton. by right.
  - rewrite Hreg. by destruct (registry (holder base)).
Qed.

Lemma fresh_view_closes_with_show_witness :
  mkBinding 0 0 "show" (VFun 8) (VObj 0)
  ∈ default [] (Some [mkBinding 0 0 "show" (VFun 8) (VObj 0)]).
Proof.
  destruct (fresh_view_closes_with_show base_view) as (Hhook & _).
  apply (Hhook false (Some [mkBinding 0 0 "show" (VFun 8) (VObj 0)])).
  change (Hook "onClose" false (Some [mkBinding 0 0 "show" (VFun 8) (VObj 0)])
          ∈ [Hook "beforeClose" true (Some [mkBinding 0 0 "show" (VFun 8) (VObj 0)]);
             Remove;
             Hook "onClose" false (Some [mkBinding 0 0 "show" (VFun 8) (VObj 0)]);
             Trigger "close";
             Off 0 "show" (VFun 8) (VObj 0);
             Unbind]).
  do 2 apply list_elem_of_further. apply list_elem_of_here.
Defined.

Lemma replay_close_steps `{Listeners E} (v : View) (s : E) :
  replay (spec_close_steps v) s = replay (off_of <$> registry (holder v)) s.
Proof.
  unfold spec_close_steps. rewrite !replay_app.
  by destruct (beforeClose v), (onClose v).
Qed.

(** X9: if the listener table is in step with the registry when [close]
    is called, then after [close] no listener registered through the view
    is left on any combination (on an emitter whose [off] drops one
    registration per call): the hooks, the detaching and the "close" event
    come before the unbinding and do not disturb it. *)
Theorem close_leaves_no_listener :
  ∀ E (L : Listeners E), OneAtATime E →
  ∀ (s : E) (v : View),
    in_step s (holder v) →
    ∀ k, active (replay (trace (holder (close silent v))) s) k = 0.
Proof.
  intros E L HL s v Hstep k. destruct (close_silent v) as [Hclose _].
  rewrite Hclose. cbn [trace].
  rewrite replay_app, replay_close_steps, active_replay_offs, (Hstep k). lia.
Qed.

Lemma close_leaves_no_listener_witness :
  @active _ table
    (@replay _ table (trace (holder (close silent sample_view))) (@nobody _ table))
    (0, "show", VFun 8, VObj 0)
  = 0.
Proof.
  apply (close_leaves_no_listener _ table table_one_at_a_time).
  apply (@constructor_in_step _ table table_one_at_a_time).
  intros k. reflexivity.
Defined.

End ViewLifecycleFacts.

Module ViewMoreFacts.

Import View Template BindToFacts UnbindAllFacts ViewFacts ViewLifecycleFacts.

Lemma close_keeps_hooks react (v : View) :
  beforeClose (close react v) = beforeClose v ∧ onClose (close react v) = onClose v.
Proof.
  destruct v as [h att m c th tr ev bc oc osc]. destruct bc, oc.
  all: cbv [close hook remove with_holder holder attached beforeClose onClose
            model collection templateHelpers triggers events onShowCalled].
  all: done.
Qed.

(** X10: [close] does not remember that it ran. A second [close] enters
    [beforeClose] and [onClose] again, now with the view detached and the
    registry empty, detaches again, and emits "close" a second time; it
    makes no [off] call, and the registry stays empty. *)
Theorem close_twice (v : View) :
  let once := close silent v in
  trace (holder (close silent once))
  = trace (holder v) ++ spec_close_steps v
    ++ (if beforeClose v then [Hook "beforeClose" false (bindings (holder once))] else [])
    ++ [Remove]
    ++ (if onClose v then [Hook "onClose" false (bindings (holder once))] else [])
    ++ [Trigger "close"; Unbind]
  ∧ default [] (bindings (holder once)) = []
  ∧ registry (holder (close silent once)) = []
  ∧ length (filter (λ e, e = Trigger "close")
              (drop (length (trace (holder v))) (trace (holder (close silent once)))))
    = 2.
Proof.
  intros once.
  destruct (close_silent once) as [Htwice _]. destruct (close_silent v) as [Honce Hdetached].
  destruct (close_keeps_hooks silent v) as [Hbefore Hon].
  assert (registry (holder once) = []) as Hempty.
  { unfold once. rewrite Honce. cbn [registry bindings].
    by destruct (registry (holder v)) eqn:Hreg. }
  assert (spec_close_steps once
          = (if beforeClose v then [Hook "beforeClose" false (bindings (holder once))] else [])
            ++ [Remove]
            ++ (if onClose v then [Hook "onClose" false (bindings (holder once))] else [])
            ++ [Trigger "close"; Unbind]) as Hsteps.
  { unfold spec_close_steps. fold once in Hbefore, Hon, Hdetached.
    by rewrite Hbefore, Hon, Hdetached, Hempty. }
  rewrite Htwice, Hsteps. cbn [trace registry bindings]. fold once.
  assert (trace (holder once) = trace (holder v) ++ spec_close_steps v) as Htrace
      by (unfold once; by rewrite Honce).
  rewrite Htrace, <-!app_assoc. split_and!.
  - done.
  - exact Hempty.
  - by rewrite Hempty.
  - rewrite drop_app_length. unfold spec_close_steps.
    rewrite !filter_app, no_trigger_among_offs.
    by destruct (beforeClose v), (onClose v).
Qed.

Lemma extend_default {V} (target : gmap string V) (source : option (gmap string V)) :
  Underscore.extend target source = default ∅ source ∪ target.
Proof.
  destruct source as [src|]; simpl; [apply extend_union|by rewrite (left_id_L ∅ (∪))].
Qed.

(** X11: the map [delegateEvents] hands on has, for every descriptor,
    the trigger's handler if the view has a trigger on it and the handler
    of the events hash otherwise, and no other key; without [triggers] it
    is the events hash itself, and without either it is empty. When events
    are passed as an argument, the view's own [events] play no part. *)
Theorem delegateEvents_layers (v : View) events_arg :
  (∀ key,
     delegateEvents v events_arg !! key
     = match default ∅ (configureTriggers v) !! key with
       | Some h => Some h
       | None => default ∅ (resolved_events v events_arg) !! key
       end)
  ∧ dom (delegateEvents v events_arg)
    = dom (default ∅ (configureTriggers v)) ∪ dom (default ∅ (resolved_events v events_arg))
  ∧ (triggers v = None →
     delegateEvents v events_arg = default ∅ (resolved_events v events_arg))
  ∧ (triggers v = None → events_arg = None → events v = None →
     delegateEvents v events_arg = ∅)
  ∧ (∀ c ev, delegateEvents (with_events ev v) (Some c) = delegateEvents v (Some c)).
Proof.
  rewrite delegateEvents_union. split_and!.
  - intros key. rewrite lookup_union.
    by destruct (default ∅ (configureTriggers v) !! key), (_ !! key).
  - apply dom_union_L.
  - intros Hnone. unfold configureTriggers. rewrite Hnone. simpl.
    by rewrite (left_id_L ∅ (∪)).
  - intros Hnone -> Hev. unfold configureTriggers, resolved_events.
    rewrite Hnone, Hev. simpl. by rewrite (left_id_L ∅ (∪)).
  - intros c ev. by rewrite !delegateEvents_union.
Qed.

Lemma delegateEvents_layers_witness :
  delegateEvents list_view None = ∅.
Proof.
  destruct (delegateEvents_layers list_view None) as (_ & _ & _ & Hempty & _).
  apply Hempty; reflexivity.
Defined.

(** X12: [mixinTemplateHelpers] returns an object with the keys of the
    target and of the helpers and no other; a key the helpers do not have
    keeps the target's value; without [templateHelpers] the target comes
    back as it is (the empty object for a missing target); and mixing the
    helpers into an object that already has them changes nothing. *)
Theorem mixinTemplateHelpers_frame (v : View) (target : option (gmap string data)) :
  dom (mixinTemplateHelpers v target)
  = dom (resolved_helpers v) ∪ dom (default ∅ target)
  ∧ (∀ key, resolved_helpers v !! key = None →
       mixinTemplateHelpers v target !! key = default ∅ target !! key)
  ∧ (templateHelpers v = None → mixinTemplateHelpers v target = default ∅ target)
  ∧ mixinTemplateHelpers v (Some (mixinTemplateHelpers v target))
    = mixinTemplateHelpers v target.
Proof.
  rewrite !mixinTemplateHelpers_union. split_and!.
  - apply dom_union_L.
  - intros key Hnone. by apply lookup_union_r.
  - intros Hnone. unfold resolved_helpers. rewrite Hnone.
    by rewrite (left_id_L ∅ (∪)).
  - simpl. by rewrite (assoc_L (∪)), (idemp_L (∪)).
Qed.

Lemma mixinTemplateHelpers_frame_witness :
  mixinTemplateHelpers list_view (Some {[ "a" := DNum 1 ]}) = {[ "a" := DNum 1 ]}
  ∧ mixinTemplateHelpers sample_view (Some {[ "b" := DNum 1 ]}) !! "b" = Some (DNum 1).
Proof.
  destruct (mixinTemplateHelpers_frame list_view (Some {[ "a" := DNum 1 ]}))
    as (_ & _ & Hnone & _).
  destruct (mixinTemplateHelpers_frame sample_view (Some {[ "b" := DNum 1 ]}))
    as (_ & Hkeep & _).
  split.
  - apply Hnone. reflexivity.
  - rewrite Hkeep; vm_compute; reflexivity.
Defined.

(** X13: [getTemplate] returns the template of the options when the view
    has options and that template is truthy, whatever [this.template] is;
    in every other case, also when the options carry an empty or otherwise
    falsy template, it returns [this.template]. So it yields a truthy
    template exactly when one of the two places holds one. *)
Theorem getTemplate_precedence (this : Templated) :
  (∀ o, options this = Some o → truthy (options_template o) = true →
     getTemplate this = options_template o)
  ∧ (∀ o, options this = Some o → truthy (options_template o) = false →
       getTemplate this = template this)
  ∧ (options this = None → getTemplate this = template this)
  ∧ truthy (getTemplate this)
    = match options this with
      | Some o => truthy (options_template o) || truthy (template this)
      | None => truthy (template this)
      end.
Proof.
  unfold getTemplate. split_and!.
  - by intros o -> ->.
  - by intros o -> ->.
  - by intros ->.
  - destruct (options this) as [o|]; [|done].
    by destruct (truthy (options_template o)) eqn:Ho.
Qed.

Lemma getTemplate_precedence_witness :
  getTemplate (mkTemplated (Some (mkOptions (VStr "#override"))) (VStr "#own"))
  = VStr "#override"
  ∧ getTemplate (mkTemplated (Some (mkOptions (VStr ""))) (VStr "#own")) = VStr "#own"
  ∧ getTemplate (mkTemplated None VUndefined) = VUndefined.
Proof.
  destruct (getTemplate_precedence
              (mkTemplated (Some (mkOptions (VStr "#override"))) (VStr "#own")))
    as (Htruthy & _).
  destruct (getTemplate_precedence
              (mkTemplated (Some (mkOptions (VStr ""))) (VStr "#own")))
    as (_ & Hfalsy & _).
  destruct (getTemplate_precedence (mkTemplated None VUndefined)) as (_ & _ & Hnone & _).
  split_and!.
  - apply (Htruthy (mkOptions (VStr "#override"))); reflexivity.
  - apply (Hfalsy (mkOptions (VStr ""))); reflexivity.
  - apply Hnone. reflexivity.
Defined.

End ViewMoreFacts.

(** ** Further properties of the route compiler *)

Module AppRouterMoreFacts.

Import AppRouter AppRouterFacts.

Lemma elem_of_own_entries (table : list property) route methodName :
  (route, methodName) ∈ own_entries table
  ↔ ∃ p, p ∈ table ∧ own p = true ∧ route_of p = route ∧ method_of p = methodName.
Proof.
  unfold own_entries. rewrite list_elem_of_fmap. split.
  - intros (p & [= -> ->] & Hp). apply list_elem_of_filter in Hp as [Hown Hp].
    by exists p.
  - intros (p & Hp & Hown & <- & <-). exists p. split; [done|].
    by apply list_elem_of_filter.
Qed.



(** X15: [processAppRoutes] only adds to the routes registered before
    it, which stay in place in front, whether it returns or throws; every
    [route] call it makes is for an own property of the route table whose
    method name resolves to a truthy member of the controller, bound to
    that controller: an inherited property is never registered, and no
    route is registered with a missing method. *)
Theorem registrations_only_appended (c : Controller) (table : list property)
    (router : list registration) :
  router `prefix_of` (processAppRoutes (Some c) table router).1
  ∧ ∀ reg,
      reg ∈ drop (length router) (processAppRoutes (Some c) table router).1 →
      ∃ p, p ∈ table ∧ own p = true
           ∧ reg = (route_of p, method_of p, Bound (member c (method_of p)) (cref c))
           ∧ truthy (member c (method_of p)) = true.
Proof.
  unfold processAppRoutes. rewrite collect_reverse.
  assert (∃ found, found ⊆ reverse (own_entries table) ∧ Forall (callable c) found
            ∧ (register (Some c) (reverse (own_entries table)) router).1
              = router ++ (bind_entry c <$> found)) as (found & Hsub & Hfound & ->).
  { destruct (register_shape c (reverse (own_entries table)) router)
      as [[Hall ->]|(found & e & rest & Heq & Hfound & He & ->)].
    - by exists (reverse (own_entries table)).
    - exists found. split_and!; [|done|done].
      rewrite Heq. intros x Hx. apply elem_of_app. by left. }
  split.
  - by apply prefix_app_r.
  - intros reg. rewrite drop_app_length. intros Hreg.
    apply list_elem_of_fmap in Hreg as ([route methodName] & -> & Hin).
    pose proof (Hsub _ Hin) as Hdeclared. rewrite elem_of_reverse in Hdeclared.
    apply elem_of_own_entries in Hdeclared as (p & Hp & Hown & <- & <-).
    exists p. split_and!; [done|done|done|].
    rewrite Forall_forall in Hfound. apply (callable_resolves c _ (Hfound _ Hin)).
Qed.

Lemma registrations_only_appended_witness :
  ∃ p, p ∈ mixed_routes ∧ own p = true
       ∧ ("b", "showB", Bound (VFun 11) 1)
         = (route_of p, method_of p, Bound (member full_controller (method_of p)) 1).
Proof.
  destruct (registrations_only_appended full_controller mixed_routes []) as [_ Hown].
  destruct (Hown ("b", "showB", Bound (VFun 11) 1)) as (p & Hp & Hownp & Heq & _).
  - change (("b", "showB", Bound (VFun 11) 1)
            ∈ [("b", "showB", Bound (VFun 11) 1); ("a/:id", "showA", Bound (VFun 10) 1)]).
    apply list_elem_of_here.
  - by exists p.
Defined.

Lemma without_controller (routes : list (string * string)) (router : list registration) :
  register None routes router
  = (router, match routes with [] => None | _ => Some TypeError end).
Proof. by destruct routes as [|[route methodName] routes]. Qed.

(** X16: a router without [appRoutes] is left as it is, controller or
    not. A router with [appRoutes] but no controller, neither its own nor
    in the options, throws a [TypeError] at the first declared route and
    registers nothing, and is left as it is when the table declares no
    route of its own. A controller given in the options is the one used:
    the router's own controller then has no influence on what is
    registered or thrown. *)
Theorem constructor_controller_choice :
  (∀ this options_controller,
     appRoutes this = None → constructor this options_controller = (this, None))
  ∧ (∀ this table,
       appRoutes this = Some table → controller this = None → own_entries table ≠ [] →
       (constructor this None).2 = Some TypeError
       ∧ registered (constructor this None).1 = registered this)
  ∧ (∀ this table,
       appRoutes this = Some table → controller this = None → own_entries table = [] →
       (constructor this None).2 = None
       ∧ registered (constructor this None).1 = registered this)
  ∧ (∀ this c other,
       (constructor (with_controller other this) (Some c)).2
       = (constructor this (Some c)).2
       ∧ registered (constructor (with_controller other this) (Some c)).1
         = registered (constructor this (Some c)).1).
Proof.
  split_and!.
  - intros this options_controller Hnone. unfold constructor. by rewrite Hnone.
  - intros this table Htable Hnone Hdeclared. unfold constructor, processAppRoutes.
    rewrite Htable, Hnone, collect_reverse, without_controller. cbn [fst snd registered].
    split; [|done]. destruct (reverse (own_entries table)) eqn:Hrev; [|done].
    apply (f_equal reverse) in Hrev. by rewrite reverse_involutive in Hrev.
  - intros this table Htable Hnone Hdeclared. unfold constructor, processAppRoutes.
    rewrite Htable, Hnone, collect_reverse, without_controller, Hdeclared. done.
  - intros this c other. unfold constructor, with_controller.
    cbn [appRoutes registered controller].
    destruct (appRoutes this) as [table|]; [|done].
    by destruct (processAppRoutes (Some c) table (registered this)).
Qed.

Lemma constructor_controller_choice_witness :
  (constructor orphan_router None).2 = Some TypeError
  ∧ registered (constructor orphan_router None).1 = []
  ∧ constructor (mkRouter None None []) (Some full_controller) = (mkRouter None None [], None)
  ∧ (constructor (mkRouter (Some [mkProperty "toString" "inherited" false]) None []) None).2
    = None.
Proof.
  destruct constructor_controller_choice as (Hnone & Horphan & Hempty & _).
  destruct (Horphan orphan_router example_routes) as [Hthrown Hkept];
    [reflexivity|reflexivity|vm_compute; discriminate|].
  destruct (Hempty (mkRouter (Some [mkProperty "toString" "inherited" false]) None [])
              [mkProperty "toString" "inherited" false]) as [Hok _];
    [reflexivity|reflexivity|reflexivity|].
  split_and!.
  - exact Hthrown.
  - exact Hkept.
  - apply Hnone. reflexivity.
  - exact Hok.
Defined.

End AppRouterMoreFacts.
